(** * tornado-cli: the deposit / withdrawal client (tornado.js)

    A shallow embedding of the client's commitment codec, note codec,
    chain-state reconstruction, proof-argument assembly, relayed withdrawal
    and receipt polling, with the properties of the specification stated and
    proved over it.

    Conventions.
    - A snarkjs [bigInt] is a [Z].  A node [Buffer] is a [list Z] whose
      entries are octets; the functions below only ever build buffers whose
      entries lie in [0, 256).
    - A JavaScript string is a [string].
    - A function that can throw returns a [result]; the constructors of
      [error] carry the message of the source where there is one. *)

From Stdlib Require Import ZArith List String Ascii Bool Lia Arith.
From Stdlib Require Import Permutation Sorted.
From Equations Require Import Equations.
Import ListNotations.

Local Open Scope string_scope.
Local Open Scope list_scope.
Local Open Scope Z_scope.

(** String concatenation, the [+] of JavaScript on strings. *)
Infix "+++" := String.append (at level 60, right associativity).

(* ===================================================================== *)
(** ** Errors and the error monad *)
(* ===================================================================== *)

Inductive error : Type :=
| NumberDoesNotFit     (* snarkjs: "Number does not feed in buffer" *)
| InvalidInteger       (* bigInt(string) on a string that is no integer *)
| TreeCorrupted        (* assert: "Merkle tree is corrupted" *)
| AlreadySpent         (* assert: "The note is already spent" *)
| NotFound             (* assert: "The deposit is not found in the tree" *)
| IndexOutOfRange      (* the tree library refuses the leaf index *)
| NetworkMismatch      (* assert: "This relay is for different network" *)
| ConfirmationTimeout. (* reject: "tx was not mined" *)

Inductive result (A : Type) : Type :=
| Ok (a : A)
| Err (e : error).
Arguments Ok {A} a.
Arguments Err {A} e.

Definition bind {A B : Type} (m : result A) (k : A -> result B) : result B :=
  match m with
  | Ok a => k a
  | Err e => Err e
  end.

Declare Scope result_scope.
Delimit Scope result_scope with result.
Notation "x <- m ;; k" := (bind m (fun x => k))
  (at level 61, m at next level, right associativity) : result_scope.
Local Open Scope result_scope.

(** [assert(cond, msg)] *)
Definition assert (cond : bool) (e : error) : result unit :=
  if cond then Ok tt else Err e.

(* ===================================================================== *)
(** ** Buffers and little-endian integers (snarkjs bigInt) *)
(* ===================================================================== *)

Definition Buffer := list Z.

Definition octet (b : Z) : Prop := 0 <= b < 256.
Definition octets (buf : Buffer) : Prop := Forall octet buf.

(** The loop of [leInt2Buff]: starting from a zero-filled buffer of [len]
    bytes, while [r > 0] and there is room, store [r & 255] and shift [r]
    right by 8.  Returns the filled buffer and what is left of [r]. *)
Fixpoint leInt2Buff_loop (len : nat) (r : Z) : Buffer * Z :=
  match len with
  | O => ([], r)
  | S len' =>
      if 0 <? r
      then let (rest, r') := leInt2Buff_loop len' (Z.shiftr r 8) in
           (Z.land r 255 :: rest, r')
      else (repeat 0 (S len'), r)
  end.

(** [bigInt.prototype.leInt2Buff(len)]; throws when the number is too large. *)
Definition leInt2Buff (n : Z) (len : nat) : result Buffer :=
  let (buff, r) := leInt2Buff_loop len n in
  if 0 <? r then Err NumberDoesNotFit else Ok buff.

(** The loop of [bigInt.leBuff2int]: [res += buff[i] << (i*8)]. *)
Fixpoint leBuff2int_loop (i : Z) (buff : Buffer) (res : Z) : Z :=
  match buff with
  | [] => res
  | b :: rest => leBuff2int_loop (i + 1) rest (res + Z.shiftl b (i * 8))
  end.

Definition leBuff2int (buff : Buffer) : Z := leBuff2int_loop 0 buff 0.

(** The value of a buffer read little-endian. *)
Fixpoint leValue (buff : Buffer) : Z :=
  match buff with
  | [] => 0
  | b :: rest => b + 256 * leValue rest
  end.

(** [buf.slice(start, end)] for non-negative bounds. *)
Definition slice {A} (start stop : nat) (l : list A) : list A :=
  firstn (stop - start) (skipn start l).

(** The little-endian bytes of the specification: byte [i] of [leBytes n len]
    is [(n / 256^i) mod 256]. *)
Fixpoint leBytes (n : Z) (len : nat) : Buffer :=
  match len with
  | O => []
  | S len' => n mod 256 :: leBytes (n / 256) len'
  end.

(** A scalar that fits [len] bytes. *)
Definition fits (n : Z) (len : nat) : Prop := 0 <= n < 256 ^ Z.of_nat len.

(* ===================================================================== *)
(** ** Strings: digits, padding, hex *)
(* ===================================================================== *)

(** The digit characters of [toString(radix)]: lower case. *)
Definition digitChar (d : Z) : ascii :=
  match d with
  | 0 => "0" | 1 => "1" | 2 => "2" | 3 => "3" | 4 => "4"
  | 5 => "5" | 6 => "6" | 7 => "7" | 8 => "8" | 9 => "9"
  | 10 => "a" | 11 => "b" | 12 => "c" | 13 => "d" | 14 => "e"
  | _ => "f"
  end%char.

(** The value of a digit character, either case, from its character code;
    [None] for any other character. *)
Definition digitValue (c : ascii) : option Z :=
  let code := Z.of_N (N_of_ascii c) in
  if (48 <=? code) && (code <=? 57) then Some (code - 48)        (* 0-9 *)
  else if (97 <=? code) && (code <=? 102) then Some (code - 87)  (* a-f *)
  else if (65 <=? code) && (code <=? 70) then Some (code - 55)   (* A-F *)
  else None.

(** The character class [[0-9a-fA-F]]. *)
Definition isHexDigit (c : ascii) : bool :=
  match digitValue c with Some _ => true | None => false end.

Fixpoint allHex (s : string) : bool :=
  match s with
  | EmptyString => true
  | String c t => isHexDigit c && allHex t
  end.

(** [String(c).repeat(n)] *)
Fixpoint replicate (n : nat) (c : ascii) : string :=
  match n with
  | O => EmptyString
  | S n' => String c (replicate n' c)
  end.

(** [str.padStart(targetLength, c)]: pads on the left up to [targetLength];
    a string that is already that long is returned as it is. *)
Definition padStart (str : string) (targetLength : nat) (c : ascii) : string :=
  replicate (targetLength - String.length str) c +++ str.

(** [str.slice(n)] for [n >= 0]. *)
Fixpoint dropChars (n : nat) (s : string) : string :=
  match n, s with
  | S n', String _ t => dropChars n' t
  | _, _ => s
  end.

(** The digits of a positive number in [radix], most significant first.
    [fuel] bounds the number of digits. *)
Fixpoint digits (radix : Z) (fuel : nat) (n : Z) : string :=
  match fuel with
  | O => EmptyString
  | S fuel' =>
      if n <? radix
      then String (digitChar n) EmptyString
      else digits radix fuel' (n / radix) +++ String (digitChar (n mod radix)) EmptyString
  end.

(** [n.toString(radix)] for an integer [n]: minimal digits, ["-"] in front of
    a negative number. *)
Definition toString (radix : Z) (n : Z) : string :=
  if n <? 0
  then String "-" (digits radix (S (Z.to_nat (Z.log2 (- n)))) (- n))
  else digits radix (S (Z.to_nat (Z.log2 n))) n.

(** Reading digits in [radix], most significant first, onto [acc]; [None] at
    a character that is no digit of the radix. *)
Fixpoint parseDigits (radix : Z) (acc : Z) (s : string) : option Z :=
  match s with
  | EmptyString => Some acc
  | String c t =>
      match digitValue c with
      | Some d => if d <? radix then parseDigits radix (acc * radix + d) t else None
      | None => None
      end
  end.

(** The integer a literal denotes, for the literals the client passes to
    [bigInt]: ["0x"] followed by hex digits, or decimal digits with an
    optional ["-"].  Other strings that [bigInt] may accept (other prefixes,
    white space) denote nothing here. *)
Definition parseInteger (s : string) : option Z :=
  match s with
  | String "0" (String "x" (String c t)) => parseDigits 16 0 (String c t)
  | String "-" (String c t) => option_map Z.opp (parseDigits 10 0 (String c t))
  | String c t => parseDigits 10 0 (String c t)
  | EmptyString => Some 0
  end.

(** [bigInt(str)]; throws on a string that is no integer. *)
Definition bigIntOfString (s : string) : result Z :=
  match parseInteger s with
  | Some n => Ok n
  | None => Err InvalidInteger
  end.

(** [buf.toString('hex')]: two lower-case digits per byte. *)
Fixpoint bufferToHex (buf : Buffer) : string :=
  match buf with
  | [] => EmptyString
  | b :: rest =>
      String (digitChar (Z.shiftr b 4))
        (String (digitChar (Z.land b 15)) (bufferToHex rest))
  end.

(** [Buffer.from(str, 'hex')]: decodes pairs of hex digits and stops at the
    first pair that is not two hex digits; an odd last character is dropped. *)
Fixpoint bufferFromHex (str : string) : Buffer :=
  match str with
  | String a (String b rest) =>
      match digitValue a, digitValue b with
      | Some hi, Some lo => (hi * 16 + lo) :: bufferFromHex rest
      | _, _ => []
      end
  | _ => []
  end.

(** The argument of [toHex]: a [Buffer], or a number handed to [bigInt]
    (every call site passes a bigInt, on which [bigInt] is the identity). *)
Inductive HexArg : Type :=
| OfBuffer (buf : Buffer)
| OfNumber (n : Z).

(** The local [str] of [toHex]: the hex text before padding. *)
Definition hexText (number : HexArg) : string :=
  match number with
  | OfBuffer buf => bufferToHex buf
  | OfNumber n => toString 16 n
  end.

(** [toHex(number, length = 32)] *)
Definition toHex (number : HexArg) (length : nat) : string :=
  let str := hexText number in
  "0x" +++ padStart str (length * 2) "0".

Definition toHex32 (n : Z) : string := toHex (OfNumber n) 32.

(** The regular expressions of [runConsole]: [/^0x[0-9a-fA-F]{n}$/]. *)
Definition matchesHex (n : nat) (s : string) : bool :=
  match s with
  | String "0" (String "x" t) => (String.length t =? n)%nat && allHex t
  | _ => false
  end.

Definition noteFormat : string -> bool := matchesHex 124.
Definition addressFormat : string -> bool := matchesHex 40.

(* ===================================================================== *)
(** ** Deposits and notes *)
(* ===================================================================== *)

Record Deposit : Type := mkDeposit {
  nullifier : Z;
  secret : Z;
  preimage : Buffer;
  commitment : Z;
  nullifierHash : Z
}.

Section Codec.

(** [pedersenHash]: the x coordinate of the unpacked Pedersen hash point.
    The hash is a collaborator of the client; nothing is assumed about it. *)
Variable pedersenHash : Buffer -> Z.

Definition createDeposit (nullifier secret : Z) : result Deposit :=
  n1 <- leInt2Buff nullifier 31 ;;
  s1 <- leInt2Buff secret 31 ;;
  let preimage := n1 ++ s1 in
  let commitment := pedersenHash preimage in
  n2 <- leInt2Buff nullifier 31 ;;
  let nullifierHash := pedersenHash n2 in
  Ok (mkDeposit nullifier secret preimage commitment nullifierHash).

(** The note printed by [deposit]: [toHex(deposit.preimage, 62)]. *)
Definition encodeNote (preimage : Buffer) : string :=
  toHex (OfBuffer preimage) 62.

(** The first two statements of [generateProof]: the note is decoded with no
    check of its format. *)
Definition decodeNote (note : string) : result Deposit :=
  let buf := bufferFromHex (dropChars 2 note) in
  createDeposit (leBuff2int (slice 0 31 buf)) (leBuff2int (slice 31 62 buf)).

End Codec.

(* ===================================================================== *)
(** ** The ledger, the tree library and the proof backend *)
(* ===================================================================== *)

(** A value handed over by a collaborator whose type the client does not
    fix: a number (or bigInt) or a string.  [===] compares type and value. *)
Inductive JsValue : Type :=
| JsNumber (n : Z)
| JsString (s : string).

Definition strictEq (a b : JsValue) : bool :=
  match a, b with
  | JsNumber x, JsNumber y => x =? y
  | JsString x, JsString y => String.eqb x y
  | _, _ => false
  end.

(** [bigInt(v)] *)
Definition bigInt (v : JsValue) : result Z :=
  match v with
  | JsNumber n => Ok n
  | JsString s => bigIntOfString s
  end.

(** [returnValues] of a [Deposit] log entry. *)
Record DepositEvent : Type := mkEvent {
  leafIndex : Z;
  eventCommitment : string
}.

(** The pool contract as the client sees it. *)
Record Contract : Type := mkContract {
  address : string;
  deployedBlock : Z;
  getPastEvents : Z -> list DepositEvent;  (* 'Deposit', from a block to 'latest' *)
  isKnownRoot : string -> bool;
  isSpent : string -> bool
}.

(** What [tree.path(index)] returns. *)
Record MerklePath : Type := mkPath {
  root : Z;
  path_elements : list Z;
  path_index : list Z
}.

(** The interface of [lib/MerkleTree] that the client uses:
    [new merkleTree(height, leaves)], [tree.root()], [tree.path(index)]. *)
Record MerkleTreeLib : Type := mkLib {
  tree : Type;
  newTree : nat -> list string -> tree;
  treeRoot : tree -> Z;
  treePath : tree -> Z -> option MerklePath
}.

Definition MERKLE_TREE_HEIGHT : nat := 20.

(** [Array.prototype.sort(cmp)], a stable sort: an element is placed in front
    of the first later element that it does not exceed. *)
Section ArraySort.
Context {A : Type}.
Variable cmp : A -> A -> Z.

Fixpoint sortInsert (x : A) (l : list A) : list A :=
  match l with
  | [] => [x]
  | y :: rest => if cmp x y <=? 0 then x :: y :: rest else y :: sortInsert x rest
  end.

Fixpoint arraySort (l : list A) : list A :=
  match l with
  | [] => []
  | x :: rest => sortInsert x (arraySort rest)
  end.

End ArraySort.

(** The comparator of [generateMerkleProof]. *)
Definition byLeafIndex (a b : DepositEvent) : Z := leafIndex a - leafIndex b.

Record CircuitInput : Type := mkInput {
  in_root : Z;
  in_nullifierHash : Z;
  in_recipient : Z;
  in_relayer : Z;
  in_fee : Z;
  in_refund : Z;
  in_nullifier : Z;
  in_secret : Z;
  in_pathElements : list Z;
  in_pathIndices : list Z
}.

Record ProofArgs : Type := mkProofArgs {
  proof : string;
  args : list string
}.

Section Client.

Variable pedersenHash : Buffer -> Z.
Variable lib : MerkleTreeLib.
(** The proof backend: [toSolidityInput(genWitnessAndProve(...)).proof]. *)
Variable prove : CircuitInput -> string.

(** The events after the in-place sort; [leaves] and the later [find] both
    read this array. *)
Definition sortedEvents (contract : Contract) : list DepositEvent :=
  arraySort byLeafIndex (getPastEvents contract (deployedBlock contract)).

(** The leaf sequence handed to the tree constructor. *)
Definition treeLeaves (contract : Contract) : list string :=
  map eventCommitment (sortedEvents contract).

(** The root of the tree built from the log of [contract]. *)
Definition reconstructedRoot (contract : Contract) : Z :=
  treeRoot lib (newTree lib MERKLE_TREE_HEIGHT (treeLeaves contract)).

Definition generateMerkleProof (contract : Contract) (deposit : Deposit)
  : result MerklePath :=
  let events := sortedEvents contract in
  let leaves := map eventCommitment events in
  let tree := newTree lib MERKLE_TREE_HEIGHT leaves in
  let depositEvent :=
    find (fun e => String.eqb (eventCommitment e) (toHex32 (commitment deposit)))
         events in
  let leafIndex := match depositEvent with
                   | Some e => leafIndex e
                   | None => -1
                   end in
  let isValidRoot := isKnownRoot contract (toHex32 (treeRoot lib tree)) in
  let isSpent := isSpent contract (toHex32 (nullifierHash deposit)) in
  _ <- assert (Bool.eqb isValidRoot true) TreeCorrupted ;;
  _ <- assert (Bool.eqb isSpent false) AlreadySpent ;;
  _ <- assert (0 <=? leafIndex) NotFound ;;
  match treePath lib tree leafIndex with
  | Some p => Ok p
  | None => Err IndexOutOfRange
  end.

Definition generateProof (contract : Contract) (note : string)
    (recipient relayer fee refund : JsValue) : result ProofArgs :=
  deposit <- decodeNote pedersenHash note ;;
  p <- generateMerkleProof contract deposit ;;
  recipient' <- bigInt recipient ;;
  relayer' <- bigInt relayer ;;
  fee' <- bigInt fee ;;
  refund' <- bigInt refund ;;
  let input := mkInput (root p) (nullifierHash deposit)
                 recipient' relayer' fee' refund'
                 (nullifier deposit) (secret deposit)
                 (path_elements p) (path_index p) in
  let proof := prove input in
  let args := [ toHex32 (in_root input);
                toHex32 (in_nullifierHash input);
                toHex (OfNumber (in_recipient input)) 20;
                toHex (OfNumber (in_relayer input)) 20;
                toHex32 (in_fee input);
                toHex32 (in_refund input) ] in
  Ok (mkProofArgs proof args).

End Client.

(* ===================================================================== *)
(** ** Requests to the outside world *)
(* ===================================================================== *)

(** The body the client POSTs to the relay. *)
Record RelayBody : Type := mkBody {
  body_contract : string;
  body_proof : string;
  publicSignals : list string
}.

(** The answer of the relay's [/status]. *)
Record RelayStatus : Type := mkStatus {
  relayerAddress : string;
  netId : JsValue;
  gasPrices_fast : Z      (* an integral quote of at most 2^53, which a JavaScript
                             number holds exactly and prints in plain decimal;
                             fractional and larger quotes are not modelled *)
}.

(** The relay and the node below answer every request: a request that the
    transport rejects (an HTTP error, a node that cannot be reached) is not
    modelled, and the properties of [withdrawRelay] and [waitForTxReceipt]
    are about runs in which no request is rejected, or are conditional on
    how the run settles. *)
Record Relay : Type := mkRelay {
  status : RelayStatus;
  relayTxHash : RelayBody -> string   (* [txHash] in the answer of [/relay] *)
}.

Record Receipt : Type := mkReceipt {
  transactionHash : string;
  blockNumber : option Z   (* [null] while the transaction is pending *)
}.

(** The node: its network id, and the receipt it reports for a transaction
    at the [k]-th query of [waitForTxReceipt] (the answer may change from one
    query to the next). *)
Record Web3 : Type := mkWeb3 {
  netGetId : JsValue;
  getTransactionReceipt : nat -> string -> option Receipt
}.

(** What the client asks of the outside world, in the order it asks. *)
Inductive Request : Type :=
| HttpGet (url : string)
| HttpPost (url : string) (body : RelayBody)
| SendWithdraw (proof : string) (args : list string)
| GetTransactionReceipt (txHash : string)
| SetTimeout (ms : Z).

(** A computation that may throw and that appends its requests to a log. *)
Definition io (A : Type) : Type := list Request -> result A * list Request.

Definition ret {A} (a : A) : io A := fun log => (Ok a, log).

Definition bindIO {A B} (m : io A) (k : A -> io B) : io B :=
  fun log =>
    match m log with
    | (Ok a, log') => k a log'
    | (Err e, log') => (Err e, log')
    end.

Definition lift {A} (r : result A) : io A := fun log => (r, log).

Definition request (r : Request) : io unit := fun log => (Ok tt, log ++ [r]).

Declare Scope io_scope.
Delimit Scope io_scope with io.
Notation "x <~ m ;; k" := (bindIO m (fun x => k))
  (at level 61, m at next level, right associativity) : io_scope.
Local Open Scope io_scope.

(** Runs a computation from an empty log. *)
Definition run {A} (m : io A) : result A * list Request := m [].

(** The test [!result || !result.blockNumber] of [checkForTx], read the
    other way round: [Some r] when the answer is a receipt [r] whose block
    number is neither [null] nor [0], [None] otherwise. *)
Definition minedReceipt (result : option Receipt) : option Receipt :=
  match result with
  | None => None
  | Some r => match blockNumber r with
              | None => None
              | Some n => if n =? 0 then None else Some r
              end
  end.

Section Polling.

Variable web3 : Web3.
Variable txHash : string.
Variable attempts : nat.
Variable delay : Z.

(** [checkForTx(txHash, retryAttempt)] inside [waitForTxReceipt]: the timer
    callback is the recursive call; [resolve] and [reject] end it. *)
Equations? checkForTx (retryAttempt : nat) (log : list Request)
  : result Receipt * list Request
  by wf (S attempts - retryAttempt)%nat lt :=
  checkForTx retryAttempt log
    with minedReceipt (getTransactionReceipt web3 retryAttempt txHash) := {
    | Some r => (Ok r, log ++ [GetTransactionReceipt txHash])
    | None with le_lt_dec retryAttempt attempts := {
      | left _ =>
          checkForTx (retryAttempt + 1)%nat
            (log ++ [GetTransactionReceipt txHash; SetTimeout delay])
      | right _ =>
          (Err ConfirmationTimeout, log ++ [GetTransactionReceipt txHash]) } }.
Proof.
  replace (retryAttempt + 1)%nat with (S retryAttempt) by lia.
  destruct retryAttempt; lia.
Qed.

End Polling.

(** [waitForTxReceipt(txHash, attempts = 60, delay = 1000)] *)
Definition waitForTxReceipt (web3 : Web3) (txHash : string)
    (attempts : nat) (delay : Z) : io Receipt :=
  checkForTx web3 txHash attempts delay 0%nat.

(** [toWei(number, 'gwei')] on the decimal string of an integer: the decimal
    string of the amount in wei. *)
Definition toWeiGwei (number : string) : result string :=
  n <- bigIntOfString number ;;
  Ok (toString 10 (n * 1000000000)).

Section Orchestrator.

Variable pedersenHash : Buffer -> Z.
Variable lib : MerkleTreeLib.
Variable prove : CircuitInput -> string.
(** The session: the pool contract, the node and the relay behind
    [relayUrl]. *)
Variable tornado : Contract.
Variable web3 : Web3.
Variable relay : Relay.

(** [withdraw(note, recipient)] *)
Definition withdraw (note recipient : string) : io unit :=
  pa <~ lift (generateProof pedersenHash lib prove tornado note
                (JsString recipient) (JsNumber 0) (JsNumber 0) (JsNumber 0)) ;;
  request (SendWithdraw (proof pa) (args pa)).

(** [bigInt(toWei(gasPrices.fast.toString(), 'gwei')).mul(bigInt(1e6))], for
    the quotes that [RelayStatus] models. *)
Definition relayFee (gasPrices : RelayStatus) : result Z :=
  wei <- toWeiGwei (toString 10 (gasPrices_fast gasPrices)) ;;
  price <- bigIntOfString wei ;;
  Ok (price * 1000000).

(** [withdrawRelay(note, recipient, relayUrl)] *)
Definition withdrawRelay (note recipient relayUrl : string) : io Receipt :=
  _ <~ request (HttpGet (relayUrl +++ "/status")) ;;
  let resp := status relay in
  _ <~ lift (assert (strictEq (netId resp) (netGetId web3)
                     || strictEq (netId resp) (JsString "*"))
                    NetworkMismatch) ;;
  fee <~ lift (relayFee resp) ;;
  pa <~ lift (generateProof pedersenHash lib prove tornado note
                (JsString recipient) (JsString (relayerAddress resp))
                (JsNumber fee) (JsNumber 0)) ;;
  let body := mkBody (address tornado) (proof pa) (args pa) in
  _ <~ request (HttpPost (relayUrl +++ "/relay") body) ;;
  waitForTxReceipt web3 (relayTxHash relay body) 60 1000.

(** What the [withdraw] case of [runConsole] does with the command line. *)
Inductive WithdrawCommand : Type :=
| PrintHelp (code : Z)
| Withdraw (note recipient : string)
| WithdrawRelay (note recipient relayUrl : string).

(** [case 'withdraw'] of [runConsole(args)], [args[0]] being ['withdraw']. *)
Definition runConsoleWithdraw (args : list string) : WithdrawCommand :=
  if (3 <=? List.length args)%nat && (List.length args <=? 4)%nat
     && noteFormat (nth 1 args "") && addressFormat (nth 2 args "")
  then match nth 3 args "" with
       | EmptyString => Withdraw (nth 1 args "") (nth 2 args "")
       | relayUrl => WithdrawRelay (nth 1 args "") (nth 2 args "") relayUrl
       end
  else PrintHelp 1.

End Orchestrator.

(* ===================================================================== *)
(** ** The accumulator *)
(* ===================================================================== *)

(** Modelled from the spec: [lib/MerkleTree], the fixed-height hash tree the
    client builds from the deposit log, is not among the sources.  Following
    the specification, level 0 is the leaf sequence padded with a zero value
    to width [2^height], node [k] of level [i] is the hash of nodes [2k] and
    [2k+1] of level [i-1], the root is the single node of level [height], and
    the path of a leaf lists, from the leaf up, the sibling of the node on
    the path and the side (0 left, 1 right) of that node. *)
Module Accumulator.
Section WithHash.

Variable hash : Z -> Z -> Z.
Variable zero : Z.

Record t : Type := Construct {
  height : nat;
  leaves : list Z
}.

(** Node [k] of level [level]; the padding is read off as the default of
    [nth]. *)
Fixpoint node (leaves : list Z) (level : nat) (k : nat) : Z :=
  match level with
  | O => nth k leaves zero
  | S below => hash (node leaves below (2 * k)) (node leaves below (2 * k + 1))
  end.

Definition Root (acc : t) : Z := node (leaves acc) (height acc) 0.

Definition sibling (k : nat) : nat :=
  if (k mod 2 =? 0)%nat then (k + 1)%nat else (k - 1)%nat.

(** The siblings and sides met on the way up from node [k] of level [level],
    for [steps] levels. *)
Fixpoint climb (leaves : list Z) (level steps k : nat) : list Z * list Z :=
  match steps with
  | O => ([], [])
  | S steps' =>
      let (elements, sides) := climb leaves (S level) steps' (k / 2) in
      (node leaves level (sibling k) :: elements,
       Z.of_nat (k mod 2) :: sides)
  end.

Definition Path (acc : t) (leafIndex : Z) : result (list Z * list Z) :=
  if (leafIndex <? 0) || (Z.of_nat (List.length (leaves acc)) <=? leafIndex)
  then Err IndexOutOfRange
  else Ok (climb (leaves acc) 0 (height acc) (Z.to_nat leafIndex)).

(** Recombining a leaf with a path: at each level the running node is hashed
    with the path element, on the left when the recorded side is 0 and on
    the right otherwise. *)
Fixpoint recombine (current : Z) (elements sides : list Z) : Z :=
  match elements, sides with
  | e :: elements', s :: sides' =>
      recombine (if s =? 0 then hash current e else hash e current)
                elements' sides'
  | _, _ => current
  end.

End WithHash.
End Accumulator.

(* ===================================================================== *)
(** ** Making a deposit and the command line *)
(* ===================================================================== *)

(** [rbigint(nbytes)]: the little-endian reading of [nbytes] random bytes;
    the bytes that [crypto.randomBytes(nbytes)] returned are the argument. *)
Definition rbigint (randomBytes : Buffer) : Z := leBuff2int randomBytes.

Definition ETH_AMOUNT : Z := 8000000000000000000.

(** The transaction of [deposit]:
    [tornado.methods.deposit(commitment).send({ value, from, gas })]. *)
Record DepositSend : Type := mkDepositSend {
  sent_commitment : string;
  sent_value : Z;
  sent_gas : Z
}.

Section DepositFlow.

Variable pedersenHash : Buffer -> Z.

(** [deposit()], given the random bytes of its two calls of [rbigint(31)]:
    the transaction it sends and the note it returns. *)
Definition deposit (random1 random2 : Buffer) : result (DepositSend * string) :=
  deposit <- createDeposit pedersenHash (rbigint random1) (rbigint random2) ;;
  let sent := mkDepositSend (toHex32 (commitment deposit)) ETH_AMOUNT 2000000 in
  let note := toHex (OfBuffer (preimage deposit)) 62 in
  Ok (sent, note).

End DepositFlow.

(** What [runConsole(args)] goes on to do: print the usage and exit with a
    code, or initialise and run one of the commands. *)
Inductive Command : Type :=
| Help (code : Z)
| RunDeposit
| RunBalance (account : string)
| RunWithdraw (note recipient : string)
| RunWithdrawRelay (note recipient relayUrl : string)
| RunTest
| RunTestRelay.

(** [runConsole(args)]: the dispatch on [args[0]] and the checks of each
    case. *)
Definition runConsole (args : list string) : Command :=
  match args with
  | [] => Help 0
  | command :: _ =>
      if String.eqb command "deposit" then
        if (List.length args =? 1)%nat then RunDeposit else Help 1
      else if String.eqb command "balance" then
        if (List.length args =? 2)%nat && addressFormat (nth 1 args "")
        then RunBalance (nth 1 args "")
        else Help 1
      else if String.eqb command "withdraw" then
        match runConsoleWithdraw args with
        | PrintHelp code => Help code
        | Withdraw note recipient => RunWithdraw note recipient
        | WithdrawRelay note recipient relayUrl =>
            RunWithdrawRelay note recipient relayUrl
        end
      else if String.eqb command "test" then
        if (List.length args =? 1)%nat then RunTest else Help 1
      else if String.eqb command "testRelay" then
        if (List.length args =? 1)%nat then RunTestRelay else Help 1
      else Help 1
  end.

(* ===================================================================== *)
(** ** Concrete collaborators for the examples *)
(* ===================================================================== *)

(** A stand-in for the hash: the sum of the bytes. *)
Definition exampleHash (buf : Buffer) : Z := fold_left Z.add buf 0.

(** A deposit record with no content. *)
Definition blankDeposit : Deposit := mkDeposit 0 0 (repeat 0 62) 0 0.

(** A stand-in for the tree library: every root is 0 and every path of a
    real leaf is twenty zeros. *)
Definition exampleLib : MerkleTreeLib :=
  mkLib (list string)
    (fun _ leaves => leaves)
    (fun _ => 0)
    (fun leaves i =>
       if (0 <=? i) && (i <? Z.of_nat (List.length leaves))
       then Some (mkPath 0 (repeat 0 20) (repeat 0 20))
       else None).

(** A stand-in for the proof backend. *)
Definition exampleProve (_ : CircuitInput) : string := "0xproof".

(** A ledger with the given log and the given answers to [isKnownRoot] and
    [isSpent]. *)
Definition exampleContract (events : list DepositEvent) (known spent : bool)
  : Contract :=
  mkContract "0x5f0c5a6F699772b0E1d78ac00Af40174bFef8623" 0
    (fun _ => events) (fun _ => known) (fun _ => spent).

(** A log of three deposits, delivered in two different orders. *)
Definition logA : list DepositEvent :=
  [mkEvent 2 "0xcc"; mkEvent 0 "0xaa"; mkEvent 1 "0xbb"].
Definition logB : list DepositEvent :=
  [mkEvent 1 "0xbb"; mkEvent 2 "0xcc"; mkEvent 0 "0xaa"].

(** A log in which one leaf index comes with two commitments, in two
    orders. *)
Definition clashA : list DepositEvent := [mkEvent 0 "0xaa"; mkEvent 0 "0xbb"].
Definition clashB : list DepositEvent := [mkEvent 0 "0xbb"; mkEvent 0 "0xaa"].

(** One round of polling and the log of [k] rounds. *)
Definition pollRound (txHash : string) (delay : Z) : list Request :=
  [GetTransactionReceipt txHash; SetTimeout delay].

Fixpoint pollRounds (txHash : string) (delay : Z) (k : nat) : list Request :=
  match k with
  | O => []
  | S k' => pollRound txHash delay ++ pollRounds txHash delay k'
  end.

Definition isReceiptQuery (r : Request) : bool :=
  match r with
  | GetTransactionReceipt _ => true
  | _ => false
  end.

(** The number of receipt queries in a log. *)
Definition receiptQueries (log : list Request) : nat :=
  List.length (filter isReceiptQuery log).

(** A node that never reports a receipt, and one that reports a mined
    receipt from the fourth query on. *)
Definition silentNode : Web3 := mkWeb3 (JsNumber 1) (fun _ _ => None).
Definition slowNode : Web3 :=
  mkWeb3 (JsNumber 1)
    (fun k tx => if (k <? 3)%nat then Some (mkReceipt tx None)
                 else Some (mkReceipt tx (Some 812))).

(** A note: 62 bytes in hex. *)
Definition sampleNote : string :=
  "0x070e151c232a31383f464d545b626970777e858c939aa1a8afb6bdc4cbd2d9e0e7eef5fc030a11181f262d343b424950575e656c737a81888f969da4abb2".

(** The recipient of the usage text. *)
Definition usageRecipient : string :=
  "0xee6249BA80596A4890D1BD84dbf5E4322eA4E7f0".

(** A ledger whose log holds the deposit of [sampleNote], which knows every
    root and has no nullifier registered. *)
Definition sampleLedger : Contract :=
  exampleContract
    [mkEvent 0 (toHex32 (exampleHash (bufferFromHex (dropChars 2 sampleNote))))]
    true false.

(** A relay that quotes 5 gwei on network 1 and gives its address the way
    addresses are usually printed, in mixed case. *)
Definition sampleRelay : Relay :=
  mkRelay (mkStatus "0x6A31736e7490AbE5D5676be059DFf064AB4aC754" (JsNumber 1) 5)
          (fun _ => "0xcb21").

(** The deposit of [sampleNote] and its path in [exampleLib]. *)
Definition sampleDeposit : Deposit :=
  match decodeNote exampleHash sampleNote with
  | Ok d => d
  | Err _ => blankDeposit
  end.

Definition samplePath : MerklePath := mkPath 0 (repeat 0 20) (repeat 0 20).

(** A node on another network. *)
Definition otherNode : Web3 := mkWeb3 (JsNumber 42) (fun _ _ => None).

(** The relay of the [testRelay] command. *)
Definition localRelayUrl : string := "http://localhost:8000".

(** A log in which the commitment of [sampleNote] comes twice, at the leaf
    indices 3 and 1, delivered out of order. *)
Definition twiceLog : list DepositEvent :=
  [mkEvent 3 (toHex32 (commitment sampleDeposit));
   mkEvent 1 (toHex32 (commitment sampleDeposit));
   mkEvent 0 "0xaa"].

(** A log delivered in order. *)
Definition orderedLog : list DepositEvent :=
  [mkEvent 0 "0xaa"; mkEvent 1 "0xbb"; mkEvent 2 "0xcc"].

(** What [generateProof] returns for the direct withdrawal of [sampleNote]
    to the recipient of the usage text. *)
Definition sampleProofArgs : ProofArgs :=
  match generateProof exampleHash exampleLib exampleProve sampleLedger
          sampleNote (JsString usageRecipient)
          (JsNumber 0) (JsNumber 0) (JsNumber 0) with
  | Ok pa => pa
  | Err _ => mkProofArgs "" []
  end.

(** The same relay, giving its network id as a string. *)
Definition stringIdRelay : Relay :=
  mkRelay (mkStatus "0x6A31736e7490AbE5D5676be059DFf064AB4aC754" (JsString "1") 5)
          (fun _ => "0xcb21").

(** What [generateProof] returns for the withdrawal of [sampleNote] through
    [sampleRelay]. *)
Definition sampleRelayedArgs : ProofArgs :=
  match generateProof exampleHash exampleLib exampleProve sampleLedger
          sampleNote (JsString usageRecipient)
          (JsString (relayerAddress (status sampleRelay)))
          (JsNumber (5 * 1000000000 * 1000000)) (JsNumber 0) with
  | Ok pa => pa
  | Err _ => mkProofArgs "" []
  end.

(** A stand-in for the hash of two nodes. *)
Definition exampleHash2 (l r : Z) : Z := 2 * l + 3 * r + 1.

(** Twenty leaves [c0..c19]. *)
Definition twentyLeaves : list Z := map Z.of_nat (seq 100 20).

(** Events of the log are ordered by their leaf index. *)
Definition leIndex (a b : DepositEvent) : Prop := leafIndex a <= leafIndex b.

(** In a log, the leaf index determines the commitment. *)
Definition indexDeterminesCommitment (events : list DepositEvent) : Prop :=
  forall a b, In a events -> In b events ->
    leafIndex a = leafIndex b -> eventCommitment a = eventCommitment b.

(* ===================================================================== *)
(** * Properties *)
(* ===================================================================== *)

(** ** The error monad *)

Lemma bind_Ok {A B} (m : result A) (k : A -> result B) (b : B) :
  bind m k = Ok b -> exists a, m = Ok a /\ k a = Ok b.
Proof. destruct m as [a|e]; simpl; intros E; [eauto | discriminate]. Qed.

Lemma bind_Err {A B} (m : result A) (k : A -> result B) (e : error) :
  bind m k = Err e -> m = Err e \/ exists a, m = Ok a /\ k a = Err e.
Proof.
  destruct m as [a|e']; simpl; intros E; [eauto | left; congruence].
Qed.

(** ** Strings *)

Lemma append_length (s t : string) :
  String.length (s +++ t) = (String.length s + String.length t)%nat.
Proof. induction s as [|c s IH]; simpl; [reflexivity | now rewrite IH]. Qed.

Lemma append_empty_r (s : string) : s +++ "" = s.
Proof. induction s as [|c s IH]; simpl; [reflexivity | now rewrite IH]. Qed.

Lemma append_assoc (s t u : string) : (s +++ t) +++ u = s +++ (t +++ u).
Proof. induction s as [|c s IH]; simpl; [reflexivity | now rewrite IH]. Qed.

Lemma replicate_length (n : nat) (c : ascii) : String.length (replicate n c) = n.
Proof. induction n as [|n IH]; simpl; [reflexivity | now rewrite IH]. Qed.

Lemma padStart_length (s : string) (n : nat) (c : ascii) :
  String.length (padStart s n c) = Nat.max n (String.length s).
Proof. unfold padStart. rewrite append_length, replicate_length. lia. Qed.

Lemma padStart_long (s : string) (n : nat) (c : ascii) :
  (n <= String.length s)%nat -> padStart s n c = s.
Proof.
  intros H. unfold padStart.
  replace (n - String.length s)%nat with 0%nat by lia. reflexivity.
Qed.

(** ** Little-endian integers *)

Lemma leBytes_length (len : nat) : forall n, List.length (leBytes n len) = len.
Proof. induction len as [|len IH]; intros n; simpl; [reflexivity | now rewrite IH]. Qed.

Lemma leBytes_octets (len : nat) : forall n, octets (leBytes n len).
Proof.
  induction len as [|len IH]; intros n; simpl; constructor.
  - unfold octet. apply Z.mod_pos_bound. lia.
  - apply IH.
Qed.

Lemma leBytes_zero (len : nat) : leBytes 0 len = repeat 0 len.
Proof.
  induction len as [|len IH]; [reflexivity|].
  cbn [leBytes repeat]. change (0 / 256) with 0. change (0 mod 256) with 0.
  now rewrite IH.
Qed.

Lemma pow256_succ (len : nat) : 256 ^ Z.of_nat (S len) = 256 * 256 ^ Z.of_nat len.
Proof. rewrite Nat2Z.inj_succ, Z.pow_succ_r by lia. reflexivity. Qed.

Lemma leInt2Buff_loop_spec (len : nat) :
  forall r, 0 <= r ->
    leInt2Buff_loop len r = (leBytes r len, r / 256 ^ Z.of_nat len).
Proof.
  induction len as [|len IH]; intros r Hr.
  - simpl. now rewrite Z.div_1_r.
  - cbn [leInt2Buff_loop leBytes]. destruct (0 <? r) eqn:E.
    + rewrite Z.shiftr_div_pow2 by lia. change (2 ^ 8) with 256.
      rewrite IH by (apply Z.div_pos; lia).
      change 255 with (Z.ones 8). rewrite Z.land_ones by lia.
      change (2 ^ 8) with 256.
      rewrite pow256_succ, Z.div_div by lia. reflexivity.
    + apply Z.ltb_ge in E. assert (r = 0) by lia. subst r.
      change (repeat 0 (S len)) with (0 :: repeat 0 len).
      change (0 mod 256) with 0. change (0 / 256) with 0.
      rewrite leBytes_zero, Z.div_0_l by (apply Z.pow_nonzero; lia).
      reflexivity.
Qed.

Lemma leInt2Buff_fits (n : Z) (len : nat) :
  fits n len -> leInt2Buff n len = Ok (leBytes n len).
Proof.
  intros [H0 H1]. unfold leInt2Buff.
  rewrite leInt2Buff_loop_spec by assumption.
  rewrite Z.div_small by lia. reflexivity.
Qed.

Lemma leBuff2int_loop_spec (buff : Buffer) :
  forall i res, 0 <= i ->
    leBuff2int_loop i buff res = res + 2 ^ (i * 8) * leValue buff.
Proof.
  induction buff as [|b rest IH]; intros i res Hi;
    cbn [leBuff2int_loop leValue].
  - lia.
  - rewrite IH by lia. rewrite Z.shiftl_mul_pow2 by lia.
    replace ((i + 1) * 8) with (i * 8 + 8) by lia.
    rewrite Z.pow_add_r by lia. change (2 ^ 8) with 256. ring.
Qed.

Lemma leBuff2int_value (buff : Buffer) : leBuff2int buff = leValue buff.
Proof.
  unfold leBuff2int. rewrite leBuff2int_loop_spec by lia.
  change (2 ^ (0 * 8)) with 1. lia.
Qed.

Lemma leValue_leBytes (len : nat) :
  forall n, 0 <= n -> leValue (leBytes n len) = n mod 256 ^ Z.of_nat len.
Proof.
  induction len as [|len IH]; intros n Hn.
  - simpl. now rewrite Z.mod_1_r.
  - cbn [leBytes leValue]. rewrite IH by (apply Z.div_pos; lia).
    rewrite pow256_succ.
    rewrite Z.rem_mul_r by (try apply Z.pow_nonzero; lia). lia.
Qed.

Lemma leBuff2int_leBytes (n : Z) (len : nat) :
  fits n len -> leBuff2int (leBytes n len) = n.
Proof.
  intros [H0 H1]. rewrite leBuff2int_value, leValue_leBytes by assumption.
  apply Z.mod_small. lia.
Qed.

Lemma leValue_bounds (buff : Buffer) :
  octets buff -> 0 <= leValue buff < 256 ^ Z.of_nat (List.length buff).
Proof.
  induction 1 as [|b rest Hb _ IH].
  - simpl. lia.
  - cbn [leValue List.length]. rewrite pow256_succ. unfold octet in Hb. lia.
Qed.

Lemma leBytes_leValue (buff : Buffer) :
  octets buff -> leBytes (leValue buff) (List.length buff) = buff.
Proof.
  induction 1 as [|b rest Hb Hrest IH].
  - reflexivity.
  - cbn [leValue List.length leBytes]. unfold octet in Hb.
    replace (b + 256 * leValue rest) with (b + leValue rest * 256) by ring.
    rewrite Z.mod_add, Z.div_add by lia.
    rewrite Z.mod_small, Z.div_small by lia.
    cbn [Z.add]. now rewrite IH.
Qed.

Lemma slice_app_l {A} (a b : list A) (n : nat) :
  List.length a = n -> slice 0 n (a ++ b) = a.
Proof.
  intros <-. unfold slice. rewrite Nat.sub_0_r. cbn [skipn].
  rewrite firstn_app, Nat.sub_diag, firstn_all, firstn_O. apply app_nil_r.
Qed.

Lemma slice_app_r {A} (a b : list A) (n m : nat) :
  List.length a = n -> List.length b = (m - n)%nat -> slice n m (a ++ b) = b.
Proof.
  intros <- Hb. unfold slice.
  rewrite skipn_app, Nat.sub_diag, skipn_all. cbn [skipn app].
  rewrite <- Hb. apply firstn_all.
Qed.

(** ** Hex digits *)

Ltac digit_cases d :=
  let H := fresh "H" in
  assert (H : d = 0 \/ d = 1 \/ d = 2 \/ d = 3 \/ d = 4 \/ d = 5 \/ d = 6
              \/ d = 7 \/ d = 8 \/ d = 9 \/ d = 10 \/ d = 11 \/ d = 12
              \/ d = 13 \/ d = 14 \/ d = 15) by lia;
  repeat (destruct H as [H|H]; [rewrite H|]); try rewrite H.

Lemma digitValue_digitChar (d : Z) :
  0 <= d < 16 -> digitValue (digitChar d) = Some d.
Proof. intros Hd. digit_cases d; reflexivity. Qed.

Lemma isHexDigit_digitChar (d : Z) :
  0 <= d < 16 -> isHexDigit (digitChar d) = true.
Proof.
  intros Hd. unfold isHexDigit. now rewrite digitValue_digitChar.
Qed.

Lemma digitValue_range (c : ascii) (d : Z) :
  digitValue c = Some d -> 0 <= d < 16.
Proof.
  destruct c as [[] [] [] [] [] [] [] []]; cbn; intros E;
    try discriminate; injection E as <-; lia.
Qed.

Lemma octet_nibbles (b : Z) :
  octet b ->
  Z.shiftr b 4 = b / 16 /\ Z.land b 15 = b mod 16
  /\ 0 <= b / 16 < 16 /\ 0 <= b mod 16 < 16.
Proof.
  intros [H0 H1]. rewrite Z.shiftr_div_pow2 by lia.
  change 15 with (Z.ones 4). rewrite Z.land_ones by lia.
  change (2 ^ 4) with 16. repeat split.
  - apply Z.div_pos; lia.
  - apply Z.div_lt_upper_bound; lia.
  - apply Z.mod_pos_bound; lia.
  - apply Z.mod_pos_bound; lia.
Qed.

Lemma bufferToHex_length (buf : Buffer) :
  String.length (bufferToHex buf) = (2 * List.length buf)%nat.
Proof.
  induction buf as [|b rest IH]; cbn [bufferToHex String.length List.length].
  - reflexivity.
  - rewrite IH. lia.
Qed.

Lemma allHex_bufferToHex (buf : Buffer) :
  octets buf -> allHex (bufferToHex buf) = true.
Proof.
  induction 1 as [|b rest Hb _ IH]; cbn [bufferToHex allHex].
  - reflexivity.
  - destruct (octet_nibbles b Hb) as (-> & -> & Hhi & Hlo).
    now rewrite !isHexDigit_digitChar, IH.
Qed.

Lemma bufferFromHex_bufferToHex (buf : Buffer) :
  octets buf -> bufferFromHex (bufferToHex buf) = buf.
Proof.
  induction 1 as [|b rest Hb _ IH]; cbn [bufferToHex bufferFromHex].
  - reflexivity.
  - destruct (octet_nibbles b Hb) as (-> & -> & Hhi & Hlo).
    rewrite !digitValue_digitChar, IH by assumption.
    f_equal. pose proof (Z.div_mod b 16). lia.
Qed.

Lemma bufferFromHex_octets (s : string) : octets (bufferFromHex s).
Proof.
  remember (String.length s) as n eqn:Hn.
  revert s Hn. induction n as [n IH] using lt_wf_ind. intros s Hn.
  destruct s as [|a [|b rest]]; cbn [bufferFromHex]; try constructor.
  destruct (digitValue a) as [hi|] eqn:Ea; [|constructor].
  destruct (digitValue b) as [lo|] eqn:Eb; [|constructor].
  apply digitValue_range in Ea, Eb. constructor.
  - unfold octet. lia.
  - apply (IH (String.length rest)); [subst n; simpl; lia | reflexivity].
Qed.

(** The bytes decoded from a string of [2 * n] hex digits are [n]. *)
Lemma bufferFromHex_length (n : nat) :
  forall s, String.length s = (2 * n)%nat -> allHex s = true ->
    List.length (bufferFromHex s) = n.
Proof.
  induction n as [|n IH]; intros s Hlen Hhex.
  - destruct s; [reflexivity | discriminate].
  - destruct s as [|a [|b rest]]; try (simpl in Hlen; lia).
    cbn [allHex] in Hhex. apply andb_prop in Hhex as [Ha Hhex].
    apply andb_prop in Hhex as [Hb Hhex].
    unfold isHexDigit in Ha, Hb. cbn [bufferFromHex].
    destruct (digitValue a); [|discriminate].
    destruct (digitValue b); [|discriminate].
    cbn [List.length]. f_equal. apply IH; [simpl in Hlen; lia | assumption].
Qed.

(** ** Deposits *)

Section CodecFacts.

Variable pedersenHash : Buffer -> Z.

Lemma createDeposit_fits (n s : Z) :
  fits n 31 -> fits s 31 ->
  createDeposit pedersenHash n s =
    Ok (mkDeposit n s (leBytes n 31 ++ leBytes s 31)
          (pedersenHash (leBytes n 31 ++ leBytes s 31))
          (pedersenHash (leBytes n 31))).
Proof.
  intros Hn Hs. unfold createDeposit.
  rewrite (leInt2Buff_fits n 31 Hn), (leInt2Buff_fits s 31 Hs). reflexivity.
Qed.

(** C1.  For scalars [nullifier] and [secret] that fit 31 bytes,
    [createDeposit] returns a deposit whose preimage is the 62 bytes
    [leBytes nullifier 31 ++ leBytes secret 31], whose commitment is the hash
    of the preimage and whose nullifier hash is the hash of
    [leBytes nullifier 31]; calls with equal arguments return that same
    deposit. *)
Theorem createDeposit_spec (nullifier secret : Z) :
  fits nullifier 31 -> fits secret 31 ->
  exists d,
    createDeposit pedersenHash nullifier secret = Ok d
    /\ preimage d = leBytes nullifier 31 ++ leBytes secret 31
    /\ List.length (preimage d) = 62%nat
    /\ commitment d = pedersenHash (preimage d)
    /\ nullifierHash d = pedersenHash (leBytes nullifier 31)
    /\ forall nullifier' secret',
         nullifier' = nullifier -> secret' = secret ->
         createDeposit pedersenHash nullifier' secret' = Ok d.
Proof.
  intros Hn Hs. eexists. split; [apply createDeposit_fits; assumption|].
  cbn [preimage commitment nullifierHash].
  split; [reflexivity|]. split; [now rewrite length_app, !leBytes_length|].
  split; [reflexivity|]. split; [reflexivity|].
  intros n' s' -> ->. apply createDeposit_fits; assumption.
Qed.

Lemma encodeNote_62 (buf : Buffer) :
  List.length buf = 62%nat -> encodeNote buf = "0x" +++ bufferToHex buf.
Proof.
  intros H. unfold encodeNote, toHex, hexText.
  rewrite padStart_long; [reflexivity|].
  rewrite bufferToHex_length, H. apply Nat.le_refl.
Qed.

(** C2.  The note of a deposit decodes to that deposit: for scalars that fit
    31 bytes, the note printed for [createDeposit nullifier secret] is [0x]
    followed by 124 hex digits, and decoding it gives back the same deposit,
    in particular the same commitment. *)
Theorem note_round_trip (nullifier secret : Z) :
  fits nullifier 31 -> fits secret 31 ->
  exists d d',
    createDeposit pedersenHash nullifier secret = Ok d
    /\ noteFormat (encodeNote (preimage d)) = true
    /\ decodeNote pedersenHash (encodeNote (preimage d)) = Ok d'
    /\ commitment d' = commitment d
    /\ d' = d.
Proof.
  intros Hn Hs.
  pose proof (leBytes_length 31 nullifier) as Ln.
  pose proof (leBytes_length 31 secret) as Ls.
  assert (L : List.length (leBytes nullifier 31 ++ leBytes secret 31) = 62%nat)
    by now rewrite length_app, Ln, Ls.
  assert (O : octets (leBytes nullifier 31 ++ leBytes secret 31))
    by (apply Forall_app; split; apply leBytes_octets).
  eexists. eexists. split; [apply createDeposit_fits; assumption|].
  cbn [preimage commitment]. rewrite (encodeNote_62 _ L).
  assert (D : decodeNote pedersenHash
                ("0x" +++ bufferToHex (leBytes nullifier 31 ++ leBytes secret 31))
              = createDeposit pedersenHash nullifier secret).
  { unfold decodeNote. cbn [String.append dropChars].
    rewrite (bufferFromHex_bufferToHex _ O).
    rewrite (slice_app_l _ _ 31 Ln), (slice_app_r _ _ 31 62 Ln Ls).
    now rewrite !leBuff2int_leBytes. }
  split; [|split; [rewrite D; apply createDeposit_fits; assumption|split; reflexivity]].
  unfold noteFormat, matchesHex. cbn [String.append].
  rewrite bufferToHex_length, L, (allHex_bufferToHex _ O). reflexivity.
Qed.

End CodecFacts.

(** C1, at the scalars 5 and 7. *)
Lemma createDeposit_spec_witness :
  fits 5 31 /\ fits 7 31 /\
  exists d,
    createDeposit exampleHash 5 7 = Ok d
    /\ preimage d = leBytes 5 31 ++ leBytes 7 31
    /\ List.length (preimage d) = 62%nat
    /\ commitment d = exampleHash (preimage d)
    /\ nullifierHash d = exampleHash (leBytes 5 31)
    /\ forall nullifier' secret',
         nullifier' = 5 -> secret' = 7 ->
         createDeposit exampleHash nullifier' secret' = Ok d.
Proof.
  assert (F5 : fits 5 31) by (unfold fits; split; [lia | reflexivity]).
  assert (F7 : fits 7 31) by (unfold fits; split; [lia | reflexivity]).
  split; [exact F5|]. split; [exact F7|].
  exact (createDeposit_spec exampleHash 5 7 F5 F7).
Defined.

(** C2, at the scalars 5 and 7. *)
Lemma note_round_trip_witness :
  fits 5 31 /\ fits 7 31 /\
  exists d d',
    createDeposit exampleHash 5 7 = Ok d
    /\ noteFormat (encodeNote (preimage d)) = true
    /\ decodeNote exampleHash (encodeNote (preimage d)) = Ok d'
    /\ commitment d' = commitment d
    /\ d' = d.
Proof.
  assert (F5 : fits 5 31) by (unfold fits; split; [lia | reflexivity]).
  assert (F7 : fits 7 31) by (unfold fits; split; [lia | reflexivity]).
  split; [exact F5|]. split; [exact F7|].
  exact (note_round_trip exampleHash 5 7 F5 F7).
Defined.

(** ** The deposit log *)

Lemma sortInsert_perm (x : DepositEvent) (l : list DepositEvent) :
  Permutation (x :: l) (sortInsert byLeafIndex x l).
Proof.
  induction l as [|y rest IH]; cbn [sortInsert].
  - apply Permutation_refl.
  - destruct (byLeafIndex x y <=? 0).
    + apply Permutation_refl.
    + eapply perm_trans; [apply perm_swap|]. now apply perm_skip.
Qed.

Lemma arraySort_perm (l : list DepositEvent) :
  Permutation l (arraySort byLeafIndex l).
Proof.
  induction l as [|x rest IH]; cbn [arraySort].
  - apply perm_nil.
  - eapply perm_trans; [apply perm_skip, IH | apply sortInsert_perm].
Qed.

Lemma sortInsert_sorted (x : DepositEvent) (l : list DepositEvent) :
  StronglySorted leIndex l -> StronglySorted leIndex (sortInsert byLeafIndex x l).
Proof.
  induction 1 as [|y rest Hrest IH Hy]; cbn [sortInsert].
  - repeat constructor.
  - unfold byLeafIndex at 1. destruct (Z.leb_spec (leafIndex x - leafIndex y) 0) as [Hle|Hgt].
    + constructor; [now constructor|]. constructor; [unfold leIndex; lia|].
      eapply Forall_impl; [|exact Hy]. unfold leIndex. intros; lia.
    + constructor; [exact IH|].
      eapply Permutation_Forall; [apply sortInsert_perm|].
      constructor; [unfold leIndex; lia | exact Hy].
Qed.

Lemma arraySort_sorted (l : list DepositEvent) :
  StronglySorted leIndex (arraySort byLeafIndex l).
Proof.
  induction l as [|x rest IH]; cbn [arraySort].
  - constructor.
  - now apply sortInsert_sorted.
Qed.

(** Two sorted arrangements of the same log are the same list when the leaf
    index determines the commitment. *)
Lemma sorted_arrangement_unique (l1 : list DepositEvent) :
  forall l2, Permutation l1 l2 ->
    StronglySorted leIndex l1 -> StronglySorted leIndex l2 ->
    indexDeterminesCommitment l1 -> l1 = l2.
Proof.
  induction l1 as [|a t1 IH]; intros l2 P S1 S2 F.
  - apply Permutation_nil in P. now subst.
  - destruct l2 as [|b t2]; [apply Permutation_sym, Permutation_nil in P; discriminate|].
    inversion S1 as [|? ? S1' F1]; subst. inversion S2 as [|? ? S2' F2]; subst.
    assert (Ia : In a (b :: t2)) by (eapply Permutation_in; [exact P | now left]).
    assert (Ib : In b (a :: t1))
      by (eapply Permutation_in; [apply Permutation_sym; exact P | now left]).
    assert (Hab : leafIndex a <= leafIndex b).
    { destruct Ib as [->|Ib]; [lia|]. rewrite Forall_forall in F1. now apply F1. }
    assert (Hba : leafIndex b <= leafIndex a).
    { destruct Ia as [->|Ia]; [lia|]. rewrite Forall_forall in F2. now apply F2. }
    assert (E : a = b).
    { assert (Ec : eventCommitment a = eventCommitment b)
        by (apply F; [now left | exact Ib | lia]).
      destruct a, b; cbn in *. f_equal; [lia | exact Ec]. }
    subst b. f_equal. apply IH; try assumption.
    + eapply Permutation_cons_inv; exact P.
    + intros x y Hx Hy. apply F; now right.
Qed.





(** The condition on the log is needed.  In a list that no ledger returns,
    with two commitments at one leaf index, the sort keeps the two entries
    in their order of delivery, so two orders give two leaf sequences. *)
Lemma treeLeaves_depends_on_delivery_order :
  Permutation clashA clashB
  /\ treeLeaves (exampleContract clashA true false) = ["0xaa"; "0xbb"]
  /\ treeLeaves (exampleContract clashB true false) = ["0xbb"; "0xaa"]
  /\ treeLeaves (exampleContract clashB true false)
       <> treeLeaves (exampleContract clashA true false).
Proof.
  split; [apply perm_swap|].
  split; [reflexivity|]. split; [reflexivity|]. discriminate.
Qed.

(** ** Validation against the ledger *)

Section LedgerFacts.

Variable lib : MerkleTreeLib.

(** C3.  When the ledger reports the nullifier hash as spent,
    [generateMerkleProof] fails: with "The note is already spent" if the
    ledger knows the reconstructed root, whether or not the commitment is in
    the log, and with "Merkle tree is corrupted" if it does not, because the
    root is checked first. *)
Theorem spent_note_rejected (contract : Contract) (deposit : Deposit) :
  isSpent contract (toHex32 (nullifierHash deposit)) = true ->
  generateMerkleProof lib contract deposit =
    if isKnownRoot contract (toHex32 (reconstructedRoot lib contract))
    then Err AlreadySpent
    else Err TreeCorrupted.
Proof.
  intros Hspent. unfold generateMerkleProof, reconstructedRoot, treeLeaves.
  rewrite Hspent.
  destruct (isKnownRoot contract _); reflexivity.
Qed.

End LedgerFacts.

(** C3, at a ledger that knows the root, has an empty log and reports the
    note as spent. *)
Lemma spent_note_rejected_witness :
  isSpent (exampleContract [] true true) (toHex32 (nullifierHash blankDeposit))
    = true
  /\ generateMerkleProof exampleLib (exampleContract [] true true) blankDeposit
       = Err AlreadySpent.
Proof.
  split; [reflexivity|].
  exact (spent_note_rejected exampleLib (exampleContract [] true true)
           blankDeposit eq_refl).
Defined.

(** C3 as stated fails when the ledger does not know the reconstructed
    root: the note is reported as spent, and the failure is "Merkle tree is
    corrupted". *)
Lemma spent_note_with_unknown_root :
  isSpent (exampleContract [] false true) (toHex32 (nullifierHash blankDeposit))
    = true
  /\ generateMerkleProof exampleLib (exampleContract [] false true) blankDeposit
       = Err TreeCorrupted
  /\ generateMerkleProof exampleLib (exampleContract [] false true) blankDeposit
       <> Err AlreadySpent.
Proof.
  split; [reflexivity|]. split; [reflexivity | discriminate].
Qed.

(** ** The accumulator *)

Section AccumulatorFacts.

Import Accumulator.

Variable hash : Z -> Z -> Z.
Variable zero : Z.

Lemma climb_length (leaves : list Z) (steps : nat) :
  forall level k,
    List.length (fst (climb hash zero leaves level steps k)) = steps
    /\ List.length (snd (climb hash zero leaves level steps k)) = steps.
Proof.
  induction steps as [|steps IH]; intros level k; cbn [climb].
  - split; reflexivity.
  - specialize (IH (S level) (k / 2)%nat).
    destruct (climb hash zero leaves (S level) steps (k / 2)) as [es ss].
    cbn [fst snd List.length] in *. lia.
Qed.

(** One level up: the node on the path, hashed with its sibling on the side
    recorded for it, is the parent. *)
Lemma parent_of_node (leaves : list Z) (level k : nat) :
  (if Z.of_nat (k mod 2) =? 0
   then hash (node hash zero leaves level k)
             (node hash zero leaves level (sibling k))
   else hash (node hash zero leaves level (sibling k))
             (node hash zero leaves level k))
  = node hash zero leaves (S level) (k / 2).
Proof.
  cbn [node]. unfold sibling.
  pose proof (Nat.div_mod_eq k 2) as E.
  pose proof (Nat.mod_upper_bound k 2 ltac:(lia)) as B.
  destruct (Nat.eqb_spec (k mod 2) 0) as [M|M].
  - rewrite M. cbn [Z.of_nat Z.eqb].
    replace (2 * (k / 2))%nat with k by lia. reflexivity.
  - assert (M1 : (k mod 2 = 1)%nat) by lia. rewrite M1.
    cbn [Z.of_nat Pos.of_succ_nat Z.eqb].
    replace (2 * (k / 2) + 1)%nat with k by lia.
    replace (2 * (k / 2))%nat with (k - 1)%nat by lia. reflexivity.
Qed.

Lemma recombine_climb (leaves : list Z) (steps : nat) :
  forall level k,
    recombine hash (node hash zero leaves level k)
      (fst (climb hash zero leaves level steps k))
      (snd (climb hash zero leaves level steps k))
    = node hash zero leaves (level + steps) (k / 2 ^ steps).
Proof.
  induction steps as [|steps IH]; intros level k; cbn [climb].
  - cbn [fst snd recombine]. now rewrite Nat.add_0_r, Nat.pow_0_r, Nat.div_1_r.
  - specialize (IH (S level) (k / 2)%nat).
    destruct (climb hash zero leaves (S level) steps (k / 2)) as [es ss].
    cbn [fst snd recombine] in *.
    rewrite parent_of_node, IH.
    rewrite Nat.Div0.div_div, <- Nat.pow_succ_r'.
    now replace (S level + steps)%nat with (level + S steps)%nat by lia.
Qed.

(** A tree of any height: the path of a real leaf has one element and one
    side per level and recombines with the leaf to the root. *)
Lemma Path_recombines (h : nat) (leaves : list Z) (i : Z) :
  (List.length leaves <= 2 ^ h)%nat ->
  0 <= i < Z.of_nat (List.length leaves) ->
  exists elements sides,
    Path hash zero (Construct h leaves) i = Ok (elements, sides)
    /\ List.length elements = h
    /\ List.length sides = h
    /\ recombine hash (nth (Z.to_nat i) leaves zero) elements sides
       = Root hash zero (Construct h leaves).
Proof.
  intros Hfull Hi.
  exists (fst (climb hash zero leaves 0 h (Z.to_nat i))),
         (snd (climb hash zero leaves 0 h (Z.to_nat i))).
  split.
  - unfold Path. cbn [Accumulator.leaves Accumulator.height].
    destruct (Z.ltb_spec i 0) as [?|_]; [lia|].
    destruct (Z.leb_spec (Z.of_nat (List.length leaves)) i) as [?|_]; [lia|].
    cbn [orb]. now rewrite <- surjective_pairing.
  - destruct (climb_length leaves h 0 (Z.to_nat i)) as [Le Ls].
    split; [exact Le|]. split; [exact Ls|].
    change (nth (Z.to_nat i) leaves zero)
      with (node hash zero leaves 0 (Z.to_nat i)).
    rewrite recombine_climb. unfold Root.
    cbn [Accumulator.leaves Accumulator.height Nat.add].
    rewrite Nat.div_small by lia. reflexivity.
Qed.

(** C5.  In a tree of height 20 built from a leaf sequence that fits it, the
    path of every real leaf [i] has 20 elements and 20 sides, and hashing the
    leaf upwards with each path element, on the side recorded for that level,
    gives the root. *)
Theorem path_reproduces_root (leaves : list Z) (i : Z) :
  (List.length leaves <= 2 ^ MERKLE_TREE_HEIGHT)%nat ->
  0 <= i < Z.of_nat (List.length leaves) ->
  exists path_elements path_index,
    Path hash zero (Construct MERKLE_TREE_HEIGHT leaves) i
      = Ok (path_elements, path_index)
    /\ List.length path_elements = 20%nat
    /\ List.length path_index = 20%nat
    /\ recombine hash (nth (Z.to_nat i) leaves zero) path_elements path_index
       = Root hash zero (Construct MERKLE_TREE_HEIGHT leaves).
Proof. apply Path_recombines. Qed.

End AccumulatorFacts.

(** C5, at the tree of twenty leaves and the leaf of index 7. *)
Lemma path_reproduces_root_witness :
  exists path_elements path_index,
    Accumulator.Path exampleHash2 0
      (Accumulator.Construct MERKLE_TREE_HEIGHT twentyLeaves) 7
      = Ok (path_elements, path_index)
    /\ List.length path_elements = 20%nat
    /\ List.length path_index = 20%nat
    /\ Accumulator.recombine exampleHash2 (nth 7 twentyLeaves 0)
         path_elements path_index
       = Accumulator.Root exampleHash2 0
           (Accumulator.Construct MERKLE_TREE_HEIGHT twentyLeaves).
Proof.
  apply (path_reproduces_root exampleHash2 0 twentyLeaves 7).
  - change (List.length twentyLeaves) with 20%nat.
    apply Nat.lt_le_incl, Nat.pow_gt_lin_r. lia.
  - change (List.length twentyLeaves) with 20%nat. lia.
Defined.

(** ** Hex arguments of the ledger call *)

(** C10.  [toHex] pads on the left and never truncates: the result is [0x],
    then as many zeros as the text is short of [2 * length] characters, then
    the whole hex text; so it has at least [2 * length] characters after
    [0x], and exactly the characters of the text when the text is longer than
    that.  For a buffer the text is two characters per byte, whatever
    [length] is. *)
Theorem toHex_pads_never_truncates (number : HexArg) (length : nat) :
  toHex number length
    = "0x" +++ replicate (2 * length - String.length (hexText number)) "0"
           +++ hexText number
  /\ String.length (toHex number length)
     = (2 + Nat.max (2 * length) (String.length (hexText number)))%nat
  /\ ((2 * length < String.length (hexText number))%nat ->
      toHex number length = "0x" +++ hexText number
      /\ (2 + 2 * length < String.length (toHex number length))%nat)
  /\ (forall buf, number = OfBuffer buf ->
      hexText number = bufferToHex buf
      /\ String.length (hexText number) = (2 * List.length buf)%nat).
Proof.
  assert (E : toHex number length
              = "0x" +++ replicate (2 * length - String.length (hexText number)) "0"
                     +++ hexText number).
  { unfold toHex, padStart. now rewrite (Nat.mul_comm length 2). }
  split; [exact E|]. split; [|split].
  - rewrite E, !append_length, replicate_length. cbn [String.length]. lia.
  - intros Hlong. rewrite E.
    replace (2 * length - String.length (hexText number))%nat with 0%nat by lia.
    split; [reflexivity|].
    cbn [replicate String.append String.length]. lia.
  - intros buf ->. split; [reflexivity | apply bufferToHex_length].
Qed.

(** C10, at the number [2^160], one hex digit more than a 20-byte address,
    and at a buffer of three bytes given the length 2. *)
Lemma toHex_pads_never_truncates_witness :
  (toHex (OfNumber (2 ^ 160)) 20
     = "0x10000000000000000000000000000000000000000"
   /\ (2 + 2 * 20 < String.length (toHex (OfNumber (2 ^ 160)) 20))%nat)
  /\ (hexText (OfBuffer [1; 2; 255]) = bufferToHex [1; 2; 255]
      /\ toHex (OfBuffer [1; 2; 255]) 2 = "0x0102ff").
Proof.
  split.
  - destruct (toHex_pads_never_truncates (OfNumber (2 ^ 160)) 20)
      as (_ & _ & Hlong & _).
    apply Hlong. vm_compute. lia.
  - destruct (toHex_pads_never_truncates (OfBuffer [1; 2; 255]) 2)
      as (_ & _ & _ & Hbuf).
    split; [apply (Hbuf [1; 2; 255] eq_refl) | reflexivity].
Defined.

(** ** Waiting for the receipt *)

Section PollingFacts.

Variable web3 : Web3.
Variable txHash : string.
Variable attempts : nat.
Variable delay : Z.

Lemma checkForTx_step (retryAttempt : nat) (log : list Request) :
  checkForTx web3 txHash attempts delay retryAttempt log =
    match minedReceipt (getTransactionReceipt web3 retryAttempt txHash) with
    | Some r => (Ok r, log ++ [GetTransactionReceipt txHash])
    | None =>
        if (retryAttempt <=? attempts)%nat
        then checkForTx web3 txHash attempts delay (retryAttempt + 1)
               (log ++ pollRound txHash delay)
        else (Err ConfirmationTimeout, log ++ [GetTransactionReceipt txHash])
    end.
Proof.
  simp checkForTx.
  destruct (minedReceipt (getTransactionReceipt web3 retryAttempt txHash));
    simp checkForTx; [reflexivity|].
  destruct (le_lt_dec retryAttempt attempts) as [Hle|Hgt]; simp checkForTx.
  - now replace (retryAttempt <=? attempts)%nat with true
      by (symmetry; apply Nat.leb_le; exact Hle).
  - now replace (retryAttempt <=? attempts)%nat with false
      by (symmetry; apply Nat.leb_gt; exact Hgt).
Qed.

Lemma checkForTx_found (d : nat) :
  forall retryAttempt log r,
    (retryAttempt + d <= S attempts)%nat ->
    (forall j, (retryAttempt <= j < retryAttempt + d)%nat ->
       minedReceipt (getTransactionReceipt web3 j txHash) = None) ->
    minedReceipt (getTransactionReceipt web3 (retryAttempt + d) txHash) = Some r ->
    checkForTx web3 txHash attempts delay retryAttempt log
      = (Ok r, log ++ pollRounds txHash delay d ++ [GetTransactionReceipt txHash]).
Proof.
  induction d as [|d IH]; intros retryAttempt log r Hk Hnone Hsome;
    rewrite checkForTx_step.
  - rewrite Nat.add_0_r in Hsome. rewrite Hsome. reflexivity.
  - rewrite (Hnone retryAttempt) by lia.
    replace (retryAttempt <=? attempts)%nat with true
      by (symmetry; apply Nat.leb_le; lia).
    rewrite (IH (retryAttempt + 1)%nat _ r).
    + cbn [pollRounds]. now rewrite <- !app_assoc.
    + lia.
    + intros j Hj. apply Hnone. lia.
    + now replace (retryAttempt + 1 + d)%nat with (retryAttempt + S d)%nat by lia.
Qed.

Lemma checkForTx_timeout (d : nat) :
  forall retryAttempt log,
    (retryAttempt + d = S attempts)%nat ->
    (forall j, (retryAttempt <= j <= S attempts)%nat ->
       minedReceipt (getTransactionReceipt web3 j txHash) = None) ->
    checkForTx web3 txHash attempts delay retryAttempt log
      = (Err ConfirmationTimeout,
         log ++ pollRounds txHash delay d ++ [GetTransactionReceipt txHash]).
Proof.
  induction d as [|d IH]; intros retryAttempt log Hk Hnone;
    rewrite checkForTx_step; rewrite (Hnone retryAttempt) by lia.
  - replace (retryAttempt <=? attempts)%nat with false
      by (symmetry; apply Nat.leb_gt; lia).
    reflexivity.
  - replace (retryAttempt <=? attempts)%nat with true
      by (symmetry; apply Nat.leb_le; lia).
    rewrite (IH (retryAttempt + 1)%nat).
    + cbn [pollRounds]. now rewrite <- !app_assoc.
    + lia.
    + intros j Hj. apply Hnone. lia.
Qed.

Lemma receiptQueries_pollRounds (k : nat) :
  receiptQueries (pollRounds txHash delay k ++ [GetTransactionReceipt txHash])
    = S k.
Proof.
  unfold receiptQueries. induction k as [|k IH]; [reflexivity|].
  cbn [pollRounds pollRound app filter isReceiptQuery List.length].
  now rewrite IH.
Qed.

(** C9.  [waitForTxReceipt] asks for the receipt, waits [delay] and asks
    again.  While no receipt with a block number is seen it goes on until
    [attempts + 2] queries have been made and then rejects with "tx was not
    mined" (whatever the node would have answered later); at the first
    query that sees a receipt with a block number it resolves with that
    receipt, having waited [delay] before every query but the first. *)
Theorem waitForTxReceipt_bounded :
  ((forall k, (k <= S attempts)%nat ->
      minedReceipt (getTransactionReceipt web3 k txHash) = None) ->
   run (waitForTxReceipt web3 txHash attempts delay)
     = (Err ConfirmationTimeout,
        pollRounds txHash delay (S attempts) ++ [GetTransactionReceipt txHash])
   /\ receiptQueries (snd (run (waitForTxReceipt web3 txHash attempts delay)))
      = (attempts + 2)%nat)
  /\ (forall k r,
        (k <= S attempts)%nat ->
        (forall j, (j < k)%nat ->
           minedReceipt (getTransactionReceipt web3 j txHash) = None) ->
        minedReceipt (getTransactionReceipt web3 k txHash) = Some r ->
        run (waitForTxReceipt web3 txHash attempts delay)
          = (Ok r, pollRounds txHash delay k ++ [GetTransactionReceipt txHash])
        /\ receiptQueries (snd (run (waitForTxReceipt web3 txHash attempts delay)))
           = S k).
Proof.
  unfold run, waitForTxReceipt. split.
  - intros Hnone.
    rewrite (checkForTx_timeout (S attempts) 0 []); [|lia|intros j Hj; apply Hnone; lia].
    cbn [app snd]. split; [reflexivity|].
    rewrite receiptQueries_pollRounds. lia.
  - intros k r Hk Hnone Hsome.
    rewrite (checkForTx_found k 0 [] r); [|lia|intros j Hj; apply Hnone; lia|exact Hsome].
    cbn [app snd]. split; [reflexivity|]. apply receiptQueries_pollRounds.
Qed.

End PollingFacts.

(** C9, at the default 60 attempts one second apart: a node that never
    reports a receipt is asked 62 times, and a node whose fourth answer is
    the first with a block number is asked four times. *)
Lemma waitForTxReceipt_bounded_witness :
  (fst (run (waitForTxReceipt silentNode "0xaa" 60 1000)) = Err ConfirmationTimeout
   /\ receiptQueries (snd (run (waitForTxReceipt silentNode "0xaa" 60 1000)))
      = 62%nat)
  /\ run (waitForTxReceipt slowNode "0xaa" 60 1000)
     = (Ok (mkReceipt "0xaa" (Some 812)),
        pollRounds "0xaa" 1000 3 ++ [GetTransactionReceipt "0xaa"]).
Proof.
  destruct (waitForTxReceipt_bounded silentNode "0xaa" 60 1000) as [Hout _].
  destruct (waitForTxReceipt_bounded slowNode "0xaa" 60 1000) as [_ Hin].
  split.
  - destruct (Hout (fun _ _ => eq_refl)) as [E Q]. rewrite E. split; [reflexivity | exact Q].
  - apply (Hin 3%nat (mkReceipt "0xaa" (Some 812))).
    + lia.
    + intros j Hj.
      destruct j as [|[|[|j]]]; [reflexivity | reflexivity | reflexivity | lia].
    + reflexivity.
Defined.

(** ** Decoding a note *)

Lemma octets_firstn (n : nat) (buf : Buffer) : octets buf -> octets (firstn n buf).
Proof.
  intros H. revert n. induction H as [|b rest Hb _ IH]; intros [|n];
    cbn [firstn]; constructor; [exact Hb | apply IH].
Qed.

Lemma octets_skipn (n : nat) (buf : Buffer) : octets buf -> octets (skipn n buf).
Proof.
  intros H. revert n. induction H as [|b rest Hb Hrest IH]; intros [|n];
    cbn [skipn]; [constructor | constructor | now constructor | apply IH].
Qed.

Lemma octets_slice (a b : nat) (buf : Buffer) : octets buf -> octets (slice a b buf).
Proof. intros H. unfold slice. now apply octets_firstn, octets_skipn. Qed.

Lemma slice_length {A} (a b : nat) (l : list A) :
  (List.length (slice a b l) <= b - a)%nat.
Proof. unfold slice. apply firstn_le_length. Qed.

(** What is read from at most [len] bytes fits [len] bytes. *)
Lemma leBuff2int_fits (buf : Buffer) (len : nat) :
  octets buf -> (List.length buf <= len)%nat -> fits (leBuff2int buf) len.
Proof.
  intros Ho Hl. rewrite leBuff2int_value. unfold fits.
  pose proof (leValue_bounds buf Ho) as [H0 H1]. split; [exact H0|].
  eapply Z.lt_le_trans; [exact H1|]. apply Z.pow_le_mono_r; lia.
Qed.

Lemma leBytes_leBuff2int (buf : Buffer) (len : nat) :
  octets buf -> List.length buf = len -> leBytes (leBuff2int buf) len = buf.
Proof. intros Ho <-. rewrite leBuff2int_value. now apply leBytes_leValue. Qed.

Lemma matchesHex_inv (n : nat) (s : string) :
  matchesHex n s = true ->
  exists t, s = "0x" +++ t /\ String.length t = n /\ allHex t = true.
Proof.
  unfold matchesHex. intros H.
  destruct s as [|c0 s]; [discriminate H|].
  destruct c0 as [[] [] [] [] [] [] [] []]; try discriminate H.
  destruct s as [|c1 t]; [discriminate H|].
  destruct c1 as [[] [] [] [] [] [] [] []]; try discriminate H.
  apply andb_prop in H as [Hl Hh]. apply Nat.eqb_eq in Hl.
  exists t. repeat split; assumption.
Qed.

Section DecodeFacts.

Variable pedersenHash : Buffer -> Z.

Lemma decodeNote_total (note : string) :
  exists d, decodeNote pedersenHash note = Ok d.
Proof.
  unfold decodeNote. eexists. apply createDeposit_fits.
  - apply leBuff2int_fits; [apply octets_slice, bufferFromHex_octets|].
    apply (slice_length 0 31).
  - apply leBuff2int_fits; [apply octets_slice, bufferFromHex_octets|].
    apply (slice_length 31 62).
Qed.

Lemma decodeNote_wellformed (note : string) :
  noteFormat note = true ->
  exists d,
    decodeNote pedersenHash note = Ok d
    /\ preimage d = bufferFromHex (dropChars 2 note)
    /\ List.length (preimage d) = 62%nat
    /\ nullifier d = leBuff2int (firstn 31 (preimage d))
    /\ secret d = leBuff2int (skipn 31 (preimage d))
    /\ createDeposit pedersenHash (nullifier d) (secret d) = Ok d.
Proof.
  intros Hfmt. apply matchesHex_inv in Hfmt as (t & -> & Hlen & Hhex).
  cbn [String.append dropChars]. unfold decodeNote. cbn [String.append dropChars].
  set (buf := bufferFromHex t).
  assert (Ho : octets buf) by apply bufferFromHex_octets.
  assert (Hl : List.length buf = 62%nat)
    by (apply bufferFromHex_length; [rewrite Hlen; reflexivity | exact Hhex]).
  assert (S1 : slice 0 31 buf = firstn 31 buf) by reflexivity.
  assert (S2 : slice 31 62 buf = skipn 31 buf).
  { unfold slice. apply firstn_all2. rewrite length_skipn, Hl. cbn. lia. }
  rewrite S1, S2.
  assert (L1 : List.length (firstn 31 buf) = 31%nat)
    by (rewrite length_firstn, Hl; reflexivity).
  assert (L2 : List.length (skipn 31 buf) = 31%nat)
    by (rewrite length_skipn, Hl; reflexivity).
  assert (O1 : octets (firstn 31 buf)) by now apply octets_firstn.
  assert (O2 : octets (skipn 31 buf)) by now apply octets_skipn.
  assert (P : leBytes (leBuff2int (firstn 31 buf)) 31
              ++ leBytes (leBuff2int (skipn 31 buf)) 31 = buf).
  { rewrite (leBytes_leBuff2int _ 31 O1 L1), (leBytes_leBuff2int _ 31 O2 L2).
    apply firstn_skipn. }
  assert (C : createDeposit pedersenHash (leBuff2int (firstn 31 buf))
                (leBuff2int (skipn 31 buf))
              = Ok (mkDeposit (leBuff2int (firstn 31 buf))
                      (leBuff2int (skipn 31 buf)) buf
                      (pedersenHash buf)
                      (pedersenHash (firstn 31 buf)))).
  { rewrite createDeposit_fits.
    - rewrite P. do 3 f_equal. apply (leBytes_leBuff2int _ 31 O1 L1).
    - apply leBuff2int_fits; [exact O1 | lia].
    - apply leBuff2int_fits; [exact O2 | lia]. }
  eexists. split; [exact C|]. cbn [preimage nullifier secret].
  repeat split; assumption.
Qed.

(** C8.  Decoding a note checks nothing: [generateProof] derives a deposit
    from any string.  The format [^0x[0-9a-fA-F]{124}$] is tested by the
    [withdraw] case of [runConsole], which prints the usage and exits with
    code 1, deriving nothing, when the note argument does not match.  For a
    string that matches, the 62 decoded bytes are the preimage and the
    deposit is [createDeposit] of the two 31-byte little-endian scalars. *)
Theorem decodeNote_checks_nothing :
  (forall note, exists d, decodeNote pedersenHash note = Ok d)
  /\ (forall args, noteFormat (nth 1 args "") = false ->
        runConsoleWithdraw args = PrintHelp 1)
  /\ (forall note, noteFormat note = true ->
        exists d,
          decodeNote pedersenHash note = Ok d
          /\ preimage d = bufferFromHex (dropChars 2 note)
          /\ List.length (preimage d) = 62%nat
          /\ nullifier d = leBuff2int (firstn 31 (preimage d))
          /\ secret d = leBuff2int (skipn 31 (preimage d))
          /\ createDeposit pedersenHash (nullifier d) (secret d) = Ok d).
Proof.
  split; [exact decodeNote_total|]. split; [|exact decodeNote_wellformed].
  intros args H. unfold runConsoleWithdraw. rewrite H.
  now rewrite andb_false_r.
Qed.

End DecodeFacts.

(** C8, at a note of 62 bytes and at a command line whose note is too
    short. *)
Lemma decodeNote_checks_nothing_witness :
  runConsoleWithdraw ["withdraw"; "0x1234"; usageRecipient] = PrintHelp 1
  /\ exists d,
       decodeNote exampleHash sampleNote = Ok d
       /\ preimage d = bufferFromHex (dropChars 2 sampleNote)
       /\ List.length (preimage d) = 62%nat
       /\ nullifier d = leBuff2int (firstn 31 (preimage d))
       /\ secret d = leBuff2int (skipn 31 (preimage d))
       /\ createDeposit exampleHash (nullifier d) (secret d) = Ok d.
Proof.
  destruct (decodeNote_checks_nothing exampleHash) as (_ & Hgate & Hgood).
  split.
  - apply (Hgate ["withdraw"; "0x1234"; usageRecipient]). reflexivity.
  - apply (Hgood sampleNote). reflexivity.
Defined.

(** C8 as stated fails for the decoding step: a string that does not match
    the format is decoded, without any failure, into a deposit. *)
Lemma malformed_note_is_decoded :
  noteFormat "0x1234" = false
  /\ exists d,
       decodeNote exampleHash "0x1234" = Ok d
       /\ nullifier d = 13330
       /\ secret d = 0.
Proof.
  split; [reflexivity|]. eexists. split; [reflexivity|]. split; reflexivity.
Qed.

(** ** Which failures a step can raise *)

Lemma bigIntOfString_error (s : string) (e : error) :
  bigIntOfString s = Err e -> e = InvalidInteger.
Proof.
  unfold bigIntOfString. destruct (parseInteger s); intros E;
    [discriminate | now injection E].
Qed.

Lemma bigInt_error (v : JsValue) (e : error) :
  bigInt v = Err e -> e = InvalidInteger.
Proof. destruct v; cbn; [discriminate | apply bigIntOfString_error]. Qed.

Lemma relayFee_error (gasPrices : RelayStatus) (e : error) :
  relayFee gasPrices = Err e -> e = InvalidInteger.
Proof.
  unfold relayFee, toWeiGwei. intros E.
  apply bind_Err in E as [E|(wei & _ & E)].
  - apply bind_Err in E as [E|(n & _ & E)]; [|discriminate].
    now apply bigIntOfString_error in E.
  - apply bind_Err in E as [E|(price & _ & E)]; [|discriminate].
    now apply bigIntOfString_error in E.
Qed.

Section StepFacts.

Variable pedersenHash : Buffer -> Z.
Variable lib : MerkleTreeLib.
Variable prove : CircuitInput -> string.

Lemma generateMerkleProof_error (contract : Contract) (deposit : Deposit)
    (e : error) :
  generateMerkleProof lib contract deposit = Err e ->
  e = TreeCorrupted \/ e = AlreadySpent \/ e = NotFound \/ e = IndexOutOfRange.
Proof.
  unfold generateMerkleProof. intros E.
  apply bind_Err in E as [E|(_ & _ & E)].
  { unfold assert in E. destruct (Bool.eqb _ _); [discriminate|].
    injection E as <-. auto. }
  apply bind_Err in E as [E|(_ & _ & E)].
  { unfold assert in E. destruct (Bool.eqb _ _); [discriminate|].
    injection E as <-. auto. }
  apply bind_Err in E as [E|(_ & _ & E)].
  { unfold assert in E. destruct (0 <=? _); [discriminate|].
    injection E as <-. auto. }
  destruct (treePath lib _ _); [discriminate|]. injection E as <-. auto.
Qed.

Lemma generateProof_error (contract : Contract) (note : string)
    (recipient relayer fee refund : JsValue) (e : error) :
  generateProof pedersenHash lib prove contract note recipient relayer fee refund
    = Err e ->
  e = TreeCorrupted \/ e = AlreadySpent \/ e = NotFound \/ e = IndexOutOfRange
  \/ e = InvalidInteger.
Proof.
  unfold generateProof. intros E.
  apply bind_Err in E as [E|(d & _ & E)].
  { destruct (decodeNote_total pedersenHash note) as [d Hd]. congruence. }
  apply bind_Err in E as [E|(p & _ & E)].
  { apply generateMerkleProof_error in E. tauto. }
  apply bind_Err in E as [E|(? & _ & E)]; [apply bigInt_error in E; tauto|].
  apply bind_Err in E as [E|(? & _ & E)]; [apply bigInt_error in E; tauto|].
  apply bind_Err in E as [E|(? & _ & E)]; [apply bigInt_error in E; tauto|].
  apply bind_Err in E as [E|(? & _ & E)]; [apply bigInt_error in E; tauto|].
  discriminate.
Qed.

End StepFacts.

Lemma checkForTx_error (web3 : Web3) (txHash : string) (attempts : nat)
    (delay : Z) (d : nat) :
  forall retryAttempt log e,
    (S attempts - retryAttempt = d)%nat ->
    fst (checkForTx web3 txHash attempts delay retryAttempt log) = Err e ->
    e = ConfirmationTimeout.
Proof.
  induction d as [|d IH]; intros retryAttempt log e Hd;
    rewrite checkForTx_step;
    destruct (minedReceipt _); try discriminate;
    destruct (Nat.leb_spec retryAttempt attempts) as [Hle|Hgt];
    cbn [fst]; try (intros E; now injection E); try lia.
  apply IH. lia.
Qed.

Lemma checkForTx_log (web3 : Web3) (txHash : string) (attempts : nat)
    (delay : Z) (d : nat) :
  forall retryAttempt log,
    (S attempts - retryAttempt = d)%nat ->
    exists rest,
      snd (checkForTx web3 txHash attempts delay retryAttempt log) = log ++ rest.
Proof.
  induction d as [|d IH]; intros retryAttempt log Hd;
    rewrite checkForTx_step;
    destruct (minedReceipt _); try (cbn [snd]; eauto; fail);
    destruct (Nat.leb_spec retryAttempt attempts) as [Hle|Hgt];
    try (cbn [snd]; eauto; fail); try lia.
  destruct (IH (retryAttempt + 1)%nat (log ++ pollRound txHash delay))
    as [rest Hrest]; [lia|].
  rewrite Hrest, <- app_assoc. eauto.
Qed.

(** ** Printing and reading numbers *)

Lemma parseDigits_app (radix : Z) (s t : string) :
  forall acc,
    parseDigits radix acc (s +++ t) =
      match parseDigits radix acc s with
      | Some v => parseDigits radix v t
      | None => None
      end.
Proof.
  induction s as [|c s IH]; intros acc; cbn [String.append parseDigits].
  - reflexivity.
  - destruct (digitValue c) as [d|]; [|reflexivity].
    destruct (d <? radix); [apply IH | reflexivity].
Qed.

Lemma parseDigits_zeros (radix : Z) (k : nat) (s : string) :
  0 < radix ->
  parseDigits radix 0 (replicate k "0" +++ s) = parseDigits radix 0 s.
Proof.
  intros Hr. induction k as [|k IH]; cbn [replicate String.append parseDigits].
  - reflexivity.
  - change (digitValue "0") with (Some 0). cbv beta iota.
    replace (0 <? radix) with true by (symmetry; apply Z.ltb_lt; exact Hr).
    exact IH.
Qed.

Lemma parseDigits_digits (radix : Z) (fuel : nat) :
  2 <= radix <= 16 ->
  forall n, 0 <= n < radix ^ Z.of_nat fuel ->
    parseDigits radix 0 (digits radix fuel n) = Some n.
Proof.
  intros Hr. induction fuel as [|fuel IH]; intros n Hn.
  - change (radix ^ Z.of_nat 0) with 1 in Hn. cbn [digits parseDigits].
    f_equal. lia.
  - cbn [digits]. destruct (Z.ltb_spec n radix) as [Hlt|Hge].
    + cbn [parseDigits]. rewrite digitValue_digitChar by lia.
      destruct (Z.ltb_spec n radix) as [_|?]; [|lia]. f_equal; lia.
    + rewrite parseDigits_app, IH.
      * cbn [parseDigits].
        pose proof (Z.mod_pos_bound n radix ltac:(lia)) as Hm.
        rewrite digitValue_digitChar by lia.
        destruct (Z.ltb_spec (n mod radix) radix) as [_|?]; [|lia].
        pose proof (Z.div_mod n radix ltac:(lia)). f_equal; lia.
      * split; [apply Z.div_pos; lia|].
        apply Z.div_lt_upper_bound; [lia|].
        rewrite Nat2Z.inj_succ, Z.pow_succ_r in Hn by lia. lia.
Qed.

Lemma digits_nonempty (radix : Z) (fuel : nat) (n : Z) :
  (1 <= String.length (digits radix (S fuel) n))%nat.
Proof.
  cbn [digits]. destruct (n <? radix); [cbn; lia|].
  rewrite append_length. cbn [String.length]. lia.
Qed.

(** The fuel of [toString] is enough. *)
Lemma toString_fuel (radix n : Z) :
  2 <= radix -> 0 <= n -> n < radix ^ Z.of_nat (S (Z.to_nat (Z.log2 n))).
Proof.
  intros Hr Hn. rewrite Nat2Z.inj_succ, Z2Nat.id by apply Z.log2_nonneg.
  destruct (Z.eq_dec n 0) as [->|Hnz].
  - cbn. lia.
  - pose proof (Z.log2_spec n ltac:(lia)) as [_ Hup].
    eapply Z.lt_le_trans; [exact Hup|].
    apply Z.pow_le_mono_l. lia.
Qed.

(** Reading back what [toHex] printed for a number that is not negative. *)
Lemma bigIntOfString_toHex (a : Z) (length : nat) :
  0 <= a -> bigIntOfString (toHex (OfNumber a) length) = Ok a.
Proof.
  intros Ha. unfold toHex, hexText, padStart, toString.
  destruct (Z.ltb_spec a 0) as [?|_]; [lia|].
  set (text := digits 16 (S (Z.to_nat (Z.log2 a))) a).
  set (pad := replicate (length * 2 - String.length text) "0").
  assert (P : parseDigits 16 0 (pad +++ text) = Some a).
  { unfold pad. rewrite parseDigits_zeros by lia.
    apply parseDigits_digits; [lia|]. split; [exact Ha|].
    apply toString_fuel; lia. }
  assert (N : (1 <= String.length (pad +++ text))%nat).
  { rewrite append_length. pose proof (digits_nonempty 16 (Z.to_nat (Z.log2 a)) a).
    fold text in H. lia. }
  unfold bigIntOfString. cbn [String.append].
  destruct (pad +++ text) as [|c t]; [cbn in N; lia|].
  cbn [parseInteger]. now rewrite P.
Qed.

Lemma parseDigits_allHex (s : string) :
  allHex s = true ->
  forall acc, 0 <= acc -> exists v, parseDigits 16 acc s = Some v /\ 0 <= v.
Proof.
  induction s as [|c s IH]; intros Hhex acc Hacc; cbn [parseDigits].
  - eauto.
  - cbn [allHex] in Hhex. apply andb_prop in Hhex as [Hc Hs].
    unfold isHexDigit in Hc. destruct (digitValue c) as [d|] eqn:E; [|discriminate].
    apply digitValue_range in E.
    destruct (Z.ltb_spec d 16) as [_|?]; [|lia].
    apply IH; [exact Hs | lia].
Qed.

(** A well-formed address denotes a number that is not negative. *)
Lemma bigIntOfString_address (s : string) :
  addressFormat s = true -> exists a, bigIntOfString s = Ok a /\ 0 <= a.
Proof.
  intros H. apply matchesHex_inv in H as (t & -> & Hlen & Hhex).
  destruct (parseDigits_allHex t Hhex 0 ltac:(lia)) as (a & Ha & Ha0).
  exists a. split; [|exact Ha0].
  unfold bigIntOfString. cbn [String.append].
  destruct t as [|c t]; [discriminate Hlen|].
  cbn [parseInteger]. now rewrite Ha.
Qed.

(** The decimal text of a number that is not negative opens with a decimal
    digit, and so does what follows it, if anything does. *)
Lemma digits10_shape (fuel : nat) :
  forall n, 0 <= n ->
    exists d0 t,
      0 <= d0 < 10 /\ digits 10 (S fuel) n = String (digitChar d0) t
      /\ (t = "" \/ exists d1 t', 0 <= d1 < 10 /\ t = String (digitChar d1) t').
Proof.
  induction fuel as [|fuel IH]; intros n Hn; cbn [digits].
  - destruct (Z.ltb_spec n 10) as [Hlt|Hge].
    + exists n, "". auto.
    + pose proof (Z.mod_pos_bound n 10 ltac:(lia)).
      exists (n mod 10), "". auto.
  - destruct (Z.ltb_spec n 10) as [Hlt|Hge].
    + exists n, "". auto.
    + pose proof (Z.mod_pos_bound n 10 ltac:(lia)) as Hm.
      destruct (IH (n / 10) ltac:(apply Z.div_pos; lia))
        as (d0 & t & Hd0 & E & Ht).
      cbn [digits] in E. rewrite E. cbn [String.append].
      exists d0, (t +++ String (digitChar (n mod 10)) ""). split; [exact Hd0|].
      split; [reflexivity|]. right.
      destruct Ht as [->|(d1 & t' & Hd1 & ->)].
      * exists (n mod 10), "". auto.
      * exists d1, (t' +++ String (digitChar (n mod 10)) ""). auto.
Qed.

Lemma bigIntOfString_decimal (n : Z) :
  0 <= n -> bigIntOfString (toString 10 n) = Ok n.
Proof.
  intros Hn. unfold toString. destruct (Z.ltb_spec n 0) as [?|_]; [lia|].
  set (fuel := Z.to_nat (Z.log2 n)).
  assert (P : parseDigits 10 0 (digits 10 (S fuel) n) = Some n).
  { apply parseDigits_digits; [lia|]. split; [exact Hn|].
    apply toString_fuel; lia. }
  destruct (digits10_shape fuel n Hn) as (d0 & t & Hd0 & E & Ht).
  unfold bigIntOfString.
  replace (parseInteger (digits 10 (S fuel) n))
    with (parseDigits 10 0 (digits 10 (S fuel) n)); [now rewrite P|].
  rewrite E. clear E P.
  assert (C0 : d0 = 0 \/ d0 = 1 \/ d0 = 2 \/ d0 = 3 \/ d0 = 4 \/ d0 = 5
               \/ d0 = 6 \/ d0 = 7 \/ d0 = 8 \/ d0 = 9) by lia.
  destruct Ht as [->|(d1 & t' & Hd1 & ->)].
  - repeat (destruct C0 as [->|C0]; [reflexivity|]). subst d0. reflexivity.
  - assert (C1 : d1 = 0 \/ d1 = 1 \/ d1 = 2 \/ d1 = 3 \/ d1 = 4 \/ d1 = 5
                 \/ d1 = 6 \/ d1 = 7 \/ d1 = 8 \/ d1 = 9) by lia.
    repeat (destruct C0 as [->|C0];
            [repeat (destruct C1 as [->|C1]; [reflexivity|]);
             subst d1; reflexivity|]).
    subst d0.
    repeat (destruct C1 as [->|C1]; [reflexivity|]). subst d1. reflexivity.
Qed.

(** The fee for a quote that is not negative. *)
Lemma relayFee_of_quote (gasPrices : RelayStatus) :
  0 <= gasPrices_fast gasPrices ->
  relayFee gasPrices = Ok (gasPrices_fast gasPrices * 1000000000 * 1000000).
Proof.
  intros Hq. unfold relayFee, toWeiGwei.
  rewrite (bigIntOfString_decimal _ Hq). cbn [bind].
  rewrite bigIntOfString_decimal by lia. reflexivity.
Qed.

(** ** Withdrawal through a relay *)

Section RelayFacts.

Variable pedersenHash : Buffer -> Z.
Variable lib : MerkleTreeLib.
Variable prove : CircuitInput -> string.
Variable tornado : Contract.
Variable web3 : Web3.
Variable relay : Relay.

(** The run of [withdrawRelay] once the network check has passed, the fee
    has been computed and the proof has been built. *)
Lemma withdrawRelay_posts (note recipient relayUrl : string) (fee : Z)
    (pa : ProofArgs) :
  strictEq (netId (status relay)) (netGetId web3)
    || strictEq (netId (status relay)) (JsString "*") = true ->
  relayFee (status relay) = Ok fee ->
  generateProof pedersenHash lib prove tornado note (JsString recipient)
    (JsString (relayerAddress (status relay))) (JsNumber fee) (JsNumber 0)
    = Ok pa ->
  run (withdrawRelay pedersenHash lib prove tornado web3 relay
         note recipient relayUrl)
  = waitForTxReceipt web3
      (relayTxHash relay (mkBody (address tornado) (proof pa) (args pa)))
      60 1000
      [HttpGet (relayUrl +++ "/status");
       HttpPost (relayUrl +++ "/relay")
         (mkBody (address tornado) (proof pa) (args pa))].
Proof.
  intros Hnet Hfee Hproof.
  unfold run, withdrawRelay, bindIO, request, lift.
  cbn [app]. rewrite Hnet. cbn [assert]. rewrite Hfee, Hproof. reflexivity.
Qed.

(** The network check fails exactly when the two ids are not strictly
    equal and the relay's is not ["*"]; nothing but the status has then been
    asked of the relay. *)
Lemma network_check_fails_iff (note recipient relayUrl : string) :
  (fst (run (withdrawRelay pedersenHash lib prove tornado web3 relay
               note recipient relayUrl)) = Err NetworkMismatch
   <-> strictEq (netId (status relay)) (netGetId web3) = false
       /\ strictEq (netId (status relay)) (JsString "*") = false)
  /\ (fst (run (withdrawRelay pedersenHash lib prove tornado web3 relay
                  note recipient relayUrl)) = Err NetworkMismatch ->
      snd (run (withdrawRelay pedersenHash lib prove tornado web3 relay
                  note recipient relayUrl))
        = [HttpGet (relayUrl +++ "/status")]).
Proof.
  destruct (strictEq (netId (status relay)) (netGetId web3)
            || strictEq (netId (status relay)) (JsString "*")) eqn:Hnet.
  - assert (Hno : fst (run (withdrawRelay pedersenHash lib prove tornado web3
                              relay note recipient relayUrl))
                  <> Err NetworkMismatch).
    { destruct (relayFee (status relay)) as [fee|e] eqn:Hfee.
      - destruct (generateProof pedersenHash lib prove tornado note
                    (JsString recipient)
                    (JsString (relayerAddress (status relay)))
                    (JsNumber fee) (JsNumber 0)) as [pa|e] eqn:Hproof.
        + rewrite (withdrawRelay_posts _ _ _ fee pa Hnet Hfee Hproof).
          unfold waitForTxReceipt. intros E.
          apply (checkForTx_error _ _ _ _ 61) in E; [discriminate | reflexivity].
        + unfold run, withdrawRelay, bindIO, request, lift.
          cbn [app]. rewrite Hnet. cbn [assert]. rewrite Hfee, Hproof.
          cbn [fst]. apply generateProof_error in Hproof.
          intros E. injection E as ->.
          destruct Hproof as [?|[?|[?|[?|?]]]]; discriminate.
      - unfold run, withdrawRelay, bindIO, request, lift.
        cbn [app]. rewrite Hnet. cbn [assert]. rewrite Hfee.
        cbn [fst]. apply relayFee_error in Hfee.
        intros E. injection E as ->. discriminate. }
    apply orb_true_iff in Hnet. split.
    + split; [intros E; contradiction|].
      intros [E1 E2]. destruct Hnet; congruence.
    + intros E. contradiction.
  - assert (Hrun : run (withdrawRelay pedersenHash lib prove tornado web3
                          relay note recipient relayUrl)
                   = (Err NetworkMismatch, [HttpGet (relayUrl +++ "/status")])).
    { unfold run, withdrawRelay, bindIO, request, lift.
      cbn [app]. rewrite Hnet. reflexivity. }
    rewrite Hrun. apply orb_false_iff in Hnet. split.
    + split; [intros _; exact Hnet | reflexivity].
    + reflexivity.
Qed.

(** C6.  [withdrawRelay] fails with "This relay is for different network"
    exactly when the [netId] of the relay's [/status] is not strictly equal
    ([===]: same type and same value) to what the node reports and is not
    the string ["*"]; it has then asked the relay for nothing but its
    status.  The node reporting a number, a relay that gives its [netId] as
    a string other than ["*"] fails the check whatever network the string
    names.  When the check passes, the withdrawal proceeds: the fee is the
    quote times [10^9 * 10^6], [generateProof] is called with the relayer
    address and that fee, its failure is the failure of the withdrawal, and
    on success the body is POSTed to [/relay] and the receipt awaited.  (The
    relay and the node of the model answer every request; the quote is an
    integer from 0 to 2^53.) *)
Theorem relay_network_check (note recipient relayUrl : string) :
  (fst (run (withdrawRelay pedersenHash lib prove tornado web3 relay
               note recipient relayUrl)) = Err NetworkMismatch
   <-> strictEq (netId (status relay)) (netGetId web3) = false
       /\ strictEq (netId (status relay)) (JsString "*") = false)
  /\ (fst (run (withdrawRelay pedersenHash lib prove tornado web3 relay
                  note recipient relayUrl)) = Err NetworkMismatch ->
      snd (run (withdrawRelay pedersenHash lib prove tornado web3 relay
                  note recipient relayUrl))
        = [HttpGet (relayUrl +++ "/status")])
  /\ (forall s n,
        netId (status relay) = JsString s -> netGetId web3 = JsNumber n ->
        s <> "*" ->
        run (withdrawRelay pedersenHash lib prove tornado web3 relay
               note recipient relayUrl)
        = (Err NetworkMismatch, [HttpGet (relayUrl +++ "/status")]))
  /\ (strictEq (netId (status relay)) (netGetId web3)
      || strictEq (netId (status relay)) (JsString "*") = true ->
      0 <= gasPrices_fast (status relay) <= 2 ^ 53 ->
      run (withdrawRelay pedersenHash lib prove tornado web3 relay
             note recipient relayUrl)
      = match generateProof pedersenHash lib prove tornado note
                (JsString recipient)
                (JsString (relayerAddress (status relay)))
                (JsNumber (gasPrices_fast (status relay) * 1000000000 * 1000000))
                (JsNumber 0) with
        | Err e => (Err e, [HttpGet (relayUrl +++ "/status")])
        | Ok pa =>
            waitForTxReceipt web3
              (relayTxHash relay (mkBody (address tornado) (proof pa) (args pa)))
              60 1000
              [HttpGet (relayUrl +++ "/status");
               HttpPost (relayUrl +++ "/relay")
                 (mkBody (address tornado) (proof pa) (args pa))]
        end).
Proof.
  destruct (network_check_fails_iff note recipient relayUrl) as [Hiff Hlog].
  split; [exact Hiff|]. split; [exact Hlog|]. split.
  - intros s n Hs Hn Hstar.
    unfold run, withdrawRelay, bindIO, request, lift. cbn [app].
    rewrite Hs, Hn. cbn [strictEq orb].
    destruct (String.eqb_spec s "*") as [->|_]; [contradiction | reflexivity].
  - intros Hnet [Hq _].
    pose proof (relayFee_of_quote (status relay) Hq) as Hfee.
    destruct (generateProof pedersenHash lib prove tornado note
                (JsString recipient)
                (JsString (relayerAddress (status relay)))
                (JsNumber (gasPrices_fast (status relay) * 1000000000 * 1000000))
                (JsNumber 0)) as [pa|e] eqn:Hproof.
    + exact (withdrawRelay_posts note recipient relayUrl _ pa Hnet Hfee Hproof).
    + unfold run, withdrawRelay, bindIO, request, lift.
      cbn [app]. rewrite Hnet. cbn [assert]. rewrite Hfee, Hproof. reflexivity.
Qed.

(** C7.  With a quote of 5 gwei and a matching network, the fee is
    5 gwei times 1_000_000, and what is POSTed to [/relay] as
    [publicSignals[3]] is the relayer address as [toHex] prints it: [0x] and
    the lower-case hex digits of the number that [relayerAddress] denotes,
    padded to 40; read back it denotes that same number.  [publicSignals[4]]
    is the fee, printed on 32 bytes. *)
Theorem relay_fee_and_relayer (note recipient relayUrl : string)
    (d : Deposit) (p : MerklePath) :
  gasPrices_fast (status relay) = 5 ->
  strictEq (netId (status relay)) (netGetId web3) = true ->
  addressFormat recipient = true ->
  addressFormat (relayerAddress (status relay)) = true ->
  decodeNote pedersenHash note = Ok d ->
  generateMerkleProof lib tornado d = Ok p ->
  exists a body rest,
    relayFee (status relay) = Ok (5 * 1000000000 * 1000000)
    /\ bigInt (JsString (relayerAddress (status relay))) = Ok a
    /\ snd (run (withdrawRelay pedersenHash lib prove tornado web3 relay
                   note recipient relayUrl))
       = HttpGet (relayUrl +++ "/status")
           :: HttpPost (relayUrl +++ "/relay") body :: rest
    /\ nth 3 (publicSignals body) "" = toHex (OfNumber a) 20
    /\ bigInt (JsString (nth 3 (publicSignals body) "")) = Ok a
    /\ nth 4 (publicSignals body) "" = toHex32 (5 * 1000000000 * 1000000).
Proof.
  intros Hfast Hnet Hrecipient Hrelayer Hnote Hpath.
  destruct (bigIntOfString_address _ Hrecipient) as (r & Hr & _).
  destruct (bigIntOfString_address _ Hrelayer) as (a & Ha & Ha0).
  assert (Hfee : relayFee (status relay) = Ok (5 * 1000000000 * 1000000))
    by (unfold relayFee; rewrite Hfast; reflexivity).
  set (fee := 5 * 1000000000 * 1000000) in *.
  set (signals := [ toHex32 (root p); toHex32 (nullifierHash d);
                    toHex (OfNumber r) 20; toHex (OfNumber a) 20;
                    toHex32 fee; toHex32 0 ]).
  assert (Hproof : exists pr,
             generateProof pedersenHash lib prove tornado note
               (JsString recipient) (JsString (relayerAddress (status relay)))
               (JsNumber fee) (JsNumber 0)
             = Ok (mkProofArgs pr signals)).
  { unfold generateProof. rewrite Hnote. cbn [bind]. rewrite Hpath.
    cbn [bind bigInt]. rewrite Hr, Ha. cbn [bind]. eexists. reflexivity. }
  destruct Hproof as [pr Hproof].
  assert (Hnet' : strictEq (netId (status relay)) (netGetId web3)
                  || strictEq (netId (status relay)) (JsString "*") = true)
    by (rewrite Hnet; reflexivity).
  pose proof (withdrawRelay_posts note recipient relayUrl fee _
                Hnet' Hfee Hproof) as Hrun.
  cbn [proof args] in Hrun.
  destruct (checkForTx_log web3
              (relayTxHash relay (mkBody (address tornado) pr signals))
              60 1000 61 0
              [HttpGet (relayUrl +++ "/status");
               HttpPost (relayUrl +++ "/relay")
                 (mkBody (address tornado) pr signals)] eq_refl)
    as [rest Hrest].
  exists a, (mkBody (address tornado) pr signals), rest.
  split; [exact Hfee|]. split; [exact Ha|].
  split; [rewrite Hrun; exact Hrest|].
  cbn [publicSignals nth signals]. split; [reflexivity|].
  split; [|reflexivity].
  cbn [bigInt]. now apply bigIntOfString_toHex.
Qed.

End RelayFacts.

(** C6, at a relay for network 1: a node on network 42 is refused, and on
    a node on network 1 the withdrawal of [sampleNote] goes on to the POST
    and to the wait for the receipt. *)
Lemma relay_network_check_witness :
  (fst (run (withdrawRelay exampleHash exampleLib exampleProve sampleLedger
               otherNode sampleRelay sampleNote usageRecipient localRelayUrl))
     = Err NetworkMismatch
   /\ snd (run (withdrawRelay exampleHash exampleLib exampleProve sampleLedger
                  otherNode sampleRelay sampleNote usageRecipient localRelayUrl))
      = [HttpGet "http://localhost:8000/status"])
  /\ run (withdrawRelay exampleHash exampleLib exampleProve sampleLedger
            slowNode sampleRelay sampleNote usageRecipient localRelayUrl)
     = (Ok (mkReceipt "0xcb21" (Some 812)),
        [HttpGet "http://localhost:8000/status";
         HttpPost "http://localhost:8000/relay"
           (mkBody (address sampleLedger) (proof sampleRelayedArgs)
              (args sampleRelayedArgs))]
        ++ pollRounds "0xcb21" 1000 3 ++ [GetTransactionReceipt "0xcb21"]).
Proof.
  destruct (relay_network_check exampleHash exampleLib exampleProve
              sampleLedger otherNode sampleRelay sampleNote usageRecipient
              localRelayUrl) as (Hiff & Hlog & _ & _).
  destruct (relay_network_check exampleHash exampleLib exampleProve
              sampleLedger slowNode sampleRelay sampleNote usageRecipient
              localRelayUrl) as (_ & _ & _ & Hgo).
  split.
  - assert (E : fst (run (withdrawRelay exampleHash exampleLib exampleProve
                            sampleLedger otherNode sampleRelay sampleNote
                            usageRecipient localRelayUrl))
                = Err NetworkMismatch)
      by (apply (proj2 Hiff); split; reflexivity).
    split; [exact E | exact (Hlog E)].
  - rewrite Hgo; [vm_compute; reflexivity | reflexivity |].
    split; [vm_compute; discriminate | vm_compute; discriminate].
Defined.

(** C6 as stated fails for a relay that gives its [netId] as the string
    ["1"] while the node reports the number 1: the two name the same
    network, and the withdrawal fails with "This relay is for different
    network". *)
Lemma relay_rejects_id_given_as_string :
  bigInt (netId (status stringIdRelay)) = bigInt (netGetId slowNode)
  /\ run (withdrawRelay exampleHash exampleLib exampleProve sampleLedger
            slowNode stringIdRelay sampleNote usageRecipient localRelayUrl)
     = (Err NetworkMismatch, [HttpGet "http://localhost:8000/status"]).
Proof. split; reflexivity. Qed.

(** C7, at a relay that quotes 5 gwei on the network of the node. *)
Lemma relay_fee_and_relayer_witness :
  exists a body rest,
    relayFee (status sampleRelay) = Ok (5 * 1000000000 * 1000000)
    /\ bigInt (JsString (relayerAddress (status sampleRelay))) = Ok a
    /\ snd (run (withdrawRelay exampleHash exampleLib exampleProve sampleLedger
                   slowNode sampleRelay sampleNote usageRecipient localRelayUrl))
       = HttpGet (localRelayUrl +++ "/status")
           :: HttpPost (localRelayUrl +++ "/relay") body :: rest
    /\ nth 3 (publicSignals body) "" = toHex (OfNumber a) 20
    /\ bigInt (JsString (nth 3 (publicSignals body) "")) = Ok a
    /\ nth 4 (publicSignals body) "" = toHex32 (5 * 1000000000 * 1000000).
Proof.
  apply (relay_fee_and_relayer exampleHash exampleLib exampleProve sampleLedger
           slowNode sampleRelay sampleNote usageRecipient localRelayUrl
           sampleDeposit samplePath); vm_compute; reflexivity.
Defined.

(** C7 as stated fails for a relay that gives its address in mixed case:
    [publicSignals[3]] is the same address in lower case, another string. *)
Lemma relayer_signal_is_lower_case :
  gasPrices_fast (status sampleRelay) = 5
  /\ strictEq (netId (status sampleRelay)) (netGetId slowNode) = true
  /\ exists body rest,
       snd (run (withdrawRelay exampleHash exampleLib exampleProve sampleLedger
                   slowNode sampleRelay sampleNote usageRecipient localRelayUrl))
       = HttpGet "http://localhost:8000/status"
           :: HttpPost "http://localhost:8000/relay" body :: rest
       /\ relayerAddress (status sampleRelay)
          = "0x6A31736e7490AbE5D5676be059DFf064AB4aC754"
       /\ nth 3 (publicSignals body) ""
          = "0x6a31736e7490abe5d5676be059dff064ab4ac754"
       /\ nth 3 (publicSignals body) "" <> relayerAddress (status sampleRelay).
Proof.
  split; [reflexivity|]. split; [reflexivity|].
  eexists. eexists. split; [vm_compute; reflexivity|].
  split; [reflexivity|]. split; [reflexivity|].
  cbn. discriminate.
Qed.

(* ===================================================================== *)
(** * Further properties of the client *)
(* ===================================================================== *)

(** ** Scalars that do not fit, and negative scalars *)

Lemma leInt2Buff_nonpositive (n : Z) (len : nat) :
  n <= 0 -> leInt2Buff n len = Ok (repeat 0 len).
Proof.
  intros Hn. assert (E : (0 <? n) = false) by (apply Z.ltb_ge; exact Hn).
  unfold leInt2Buff.
  destruct len as [|len]; cbn [leInt2Buff_loop]; now rewrite ?E.
Qed.

Lemma leInt2Buff_too_large (n : Z) (len : nat) :
  256 ^ Z.of_nat len <= n -> leInt2Buff n len = Err NumberDoesNotFit.
Proof.
  intros Hn. assert (Hpos : 0 < 256 ^ Z.of_nat len) by (apply Z.pow_pos_nonneg; lia).
  unfold leInt2Buff. rewrite leInt2Buff_loop_spec by lia.
  assert (1 <= n / 256 ^ Z.of_nat len) by (apply Z.div_le_lower_bound; lia).
  destruct (Z.ltb_spec 0 (n / 256 ^ Z.of_nat len)) as [_|?]; [reflexivity | lia].
Qed.

(** The bytes [leInt2Buff] writes for a number below [256^len]: those of the
    number, or zeros for a negative number. *)
Lemma leInt2Buff_below (n : Z) (len : nat) :
  n < 256 ^ Z.of_nat len -> leInt2Buff n len = Ok (leBytes (Z.max 0 n) len).
Proof.
  intros Hn. destruct (Z.le_gt_cases 0 n) as [H0|H0].
  - rewrite Z.max_r by lia. apply leInt2Buff_fits. split; assumption.
  - rewrite Z.max_l by lia. rewrite leBytes_zero.
    apply leInt2Buff_nonpositive. lia.
Qed.

Section CreateDepositEdges.

Variable pedersenHash : Buffer -> Z.

(** X1.  [createDeposit] throws "Number does not feed in buffer" exactly
    when one of the scalars is [256^31] or more.  Otherwise it returns a
    deposit, and a negative scalar is written as 31 zero bytes: the record
    keeps the scalars as given, while preimage, commitment and nullifier
    hash are those of the scalars with negative values replaced by 0. *)
Theorem createDeposit_total_below (nullifier secret : Z) :
  (256 ^ 31 <= nullifier \/ 256 ^ 31 <= secret ->
   createDeposit pedersenHash nullifier secret = Err NumberDoesNotFit)
  /\ (nullifier < 256 ^ 31 -> secret < 256 ^ 31 ->
      createDeposit pedersenHash nullifier secret
      = Ok (mkDeposit nullifier secret
              (leBytes (Z.max 0 nullifier) 31 ++ leBytes (Z.max 0 secret) 31)
              (pedersenHash
                 (leBytes (Z.max 0 nullifier) 31 ++ leBytes (Z.max 0 secret) 31))
              (pedersenHash (leBytes (Z.max 0 nullifier) 31)))).
Proof.
  split.
  - intros Hbig. unfold createDeposit.
    destruct (Z.lt_ge_cases nullifier (256 ^ 31)) as [Hn|Hn].
    + destruct Hbig as [?|Hs]; [lia|].
      rewrite (leInt2Buff_below nullifier 31 Hn), (leInt2Buff_too_large secret 31 Hs).
      reflexivity.
    + now rewrite (leInt2Buff_too_large nullifier 31 Hn).
  - intros Hn Hs. unfold createDeposit.
    rewrite (leInt2Buff_below nullifier 31 Hn), (leInt2Buff_below secret 31 Hs).
    reflexivity.
Qed.

End CreateDepositEdges.

(** X1, at a nullifier of exactly [256^31] and at a negative nullifier. *)
Lemma createDeposit_total_below_witness :
  createDeposit exampleHash (256 ^ 31) 7 = Err NumberDoesNotFit
  /\ createDeposit exampleHash (-5) 7
     = Ok (mkDeposit (-5) 7 (leBytes 0 31 ++ leBytes 7 31)
             (exampleHash (leBytes 0 31 ++ leBytes 7 31))
             (exampleHash (leBytes 0 31))).
Proof.
  destruct (createDeposit_total_below exampleHash (256 ^ 31) 7) as [Hbig _].
  destruct (createDeposit_total_below exampleHash (-5) 7) as [_ Hsmall].
  split.
  - apply Hbig. left. apply Z.le_refl.
  - apply Hsmall; reflexivity.
Defined.

(** ** Making a deposit *)

Section DepositFacts.

Variable pedersenHash : Buffer -> Z.

(** X2.  With 31 random bytes for the nullifier and 31 for the secret,
    [deposit] does not throw; the preimage is the random bytes themselves,
    the commitment sent to the contract is the hash of those 62 bytes printed
    on 32 bytes, and the note returned is [0x] and their 124 hex digits.  The
    note has the format that the [withdraw] command asks for, and decoding
    it gives a deposit with the commitment that was sent. *)
Theorem deposit_note_opens_commitment (random1 random2 : Buffer) :
  octets random1 -> octets random2 ->
  List.length random1 = 31%nat -> List.length random2 = 31%nat ->
  exists d,
    deposit pedersenHash random1 random2
    = Ok (mkDepositSend (toHex32 (pedersenHash (random1 ++ random2)))
            ETH_AMOUNT 2000000,
          "0x" +++ bufferToHex (random1 ++ random2))
    /\ noteFormat ("0x" +++ bufferToHex (random1 ++ random2)) = true
    /\ decodeNote pedersenHash ("0x" +++ bufferToHex (random1 ++ random2)) = Ok d
    /\ preimage d = random1 ++ random2
    /\ toHex32 (commitment d) = toHex32 (pedersenHash (random1 ++ random2)).
Proof.
  intros O1 O2 L1 L2.
  assert (F1 : fits (rbigint random1) 31) by (apply leBuff2int_fits; [exact O1 | lia]).
  assert (F2 : fits (rbigint random2) 31) by (apply leBuff2int_fits; [exact O2 | lia]).
  assert (B1 : leBytes (rbigint random1) 31 = random1)
    by (apply leBytes_leBuff2int; assumption).
  assert (B2 : leBytes (rbigint random2) 31 = random2)
    by (apply leBytes_leBuff2int; assumption).
  assert (L : List.length (random1 ++ random2) = 62%nat)
    by (rewrite length_app, L1, L2; reflexivity).
  assert (O : octets (random1 ++ random2)) by (apply Forall_app; split; assumption).
  assert (C : createDeposit pedersenHash (rbigint random1) (rbigint random2)
              = Ok (mkDeposit (rbigint random1) (rbigint random2)
                      (random1 ++ random2)
                      (pedersenHash (random1 ++ random2))
                      (pedersenHash random1)))
    by (rewrite (createDeposit_fits _ _ _ F1 F2), B1, B2; reflexivity).
  exists (mkDeposit (rbigint random1) (rbigint random2) (random1 ++ random2)
            (pedersenHash (random1 ++ random2)) (pedersenHash random1)).
  split.
  { unfold deposit. rewrite C. cbn [bind commitment preimage].
    fold (encodeNote (random1 ++ random2)). now rewrite (encodeNote_62 _ L). }
  split.
  { unfold noteFormat, matchesHex. cbn [String.append].
    rewrite bufferToHex_length, L, (allHex_bufferToHex _ O). reflexivity. }
  split; [|split; reflexivity].
  unfold decodeNote. cbn [String.append dropChars].
  rewrite (bufferFromHex_bufferToHex _ O).
  rewrite (slice_app_l _ _ 31 L1), (slice_app_r _ _ 31 62 L1 L2).
  exact C.
Qed.

End DepositFacts.

(** X2, at the random bytes 1..31 and 32..62. *)
Lemma deposit_note_opens_commitment_witness :
  exists d,
    deposit exampleHash (map Z.of_nat (seq 1 31)) (map Z.of_nat (seq 32 31))
    = Ok (mkDepositSend
            (toHex32 (exampleHash (map Z.of_nat (seq 1 31) ++ map Z.of_nat (seq 32 31))))
            ETH_AMOUNT 2000000,
          "0x" +++ bufferToHex (map Z.of_nat (seq 1 31) ++ map Z.of_nat (seq 32 31)))
    /\ noteFormat
         ("0x" +++ bufferToHex (map Z.of_nat (seq 1 31) ++ map Z.of_nat (seq 32 31)))
       = true
    /\ decodeNote exampleHash
         ("0x" +++ bufferToHex (map Z.of_nat (seq 1 31) ++ map Z.of_nat (seq 32 31)))
       = Ok d
    /\ preimage d = map Z.of_nat (seq 1 31) ++ map Z.of_nat (seq 32 31)
    /\ toHex32 (commitment d)
       = toHex32 (exampleHash (map Z.of_nat (seq 1 31) ++ map Z.of_nat (seq 32 31))).
Proof.
  apply (deposit_note_opens_commitment exampleHash
           (map Z.of_nat (seq 1 31)) (map Z.of_nat (seq 32 31)));
    try reflexivity;
    (apply Forall_forall; intros b Hb; apply in_map_iff in Hb as (k & <- & Hk);
     apply in_seq in Hk; unfold octet; lia).
Defined.

(** ** Locating the deposit in the log *)

Lemma find_absent {A} (f : A -> bool) (l : list A) :
  (forall x, In x l -> f x = false) -> find f l = None.
Proof.
  induction l as [|x rest IH]; intros H; cbn [find]; [reflexivity|].
  rewrite (H x) by now left. apply IH. intros y Hy. apply H. now right.
Qed.

Lemma find_present {A} (f : A -> bool) (l : list A) (x : A) :
  In x l -> f x = true -> exists y, find f l = Some y.
Proof.
  induction l as [|z rest IH]; intros Hin Hx; [contradiction|].
  cbn [find]. destruct (f z) eqn:Ez; [eauto|].
  destruct Hin as [->|Hin]; [congruence | now apply IH].
Qed.

(** In a log sorted by leaf index, [find] returns the matching entry of
    least leaf index. *)
Lemma find_least (f : DepositEvent -> bool) (l : list DepositEvent)
    (e0 : DepositEvent) :
  StronglySorted leIndex l -> find f l = Some e0 ->
  forall e, In e l -> f e = true -> leafIndex e0 <= leafIndex e.
Proof.
  induction 1 as [|z rest Hrest IH Hz]; intros Hfind e Hin He; [contradiction|].
  cbn [find] in Hfind. destruct (f z) eqn:Ez.
  - injection Hfind as <-. destruct Hin as [->|Hin]; [lia|].
    rewrite Forall_forall in Hz. now apply Hz.
  - destruct Hin as [->|Hin]; [congruence|]. now apply IH.
Qed.

Lemma sortedEvents_In (contract : Contract) (e : DepositEvent) :
  In e (sortedEvents contract)
  <-> In e (getPastEvents contract (deployedBlock contract)).
Proof.
  unfold sortedEvents. split; intros H.
  - eapply Permutation_in; [apply Permutation_sym, arraySort_perm | exact H].
  - eapply Permutation_in; [apply arraySort_perm | exact H].
Qed.

(** Sorting a log that is already in order changes nothing. *)
Lemma arraySort_sorted_id (l : list DepositEvent) :
  StronglySorted leIndex l -> arraySort byLeafIndex l = l.
Proof.
  induction 1 as [|x rest Hrest IH Hx]; cbn [arraySort]; [reflexivity|].
  rewrite IH. destruct rest as [|y rest']; [reflexivity|].
  cbn [sortInsert]. inversion Hx as [|? ? Hxy _]; subst.
  unfold leIndex in Hxy. unfold byLeafIndex.
  destruct (Z.leb_spec (leafIndex x - leafIndex y) 0) as [_|?]; [reflexivity | lia].
Qed.

(** Two deliveries of the same log are sorted into the same array when the
    leaf index determines the commitment. *)
Lemma sortedEvents_delivery (contract contract' : Contract) :
  Permutation (getPastEvents contract (deployedBlock contract))
              (getPastEvents contract' (deployedBlock contract')) ->
  indexDeterminesCommitment (getPastEvents contract (deployedBlock contract)) ->
  sortedEvents contract' = sortedEvents contract.
Proof.
  intros P F. symmetry.
  apply sorted_arrangement_unique; try apply arraySort_sorted.
  - unfold sortedEvents.
    eapply perm_trans; [apply Permutation_sym, arraySort_perm|].
    eapply perm_trans; [exact P | apply arraySort_perm].
  - intros a b Ha Hb. apply F; now apply sortedEvents_In.
Qed.

Section LocateFacts.

Variable lib : MerkleTreeLib.

(** X3.  When the ledger knows the reconstructed root and has not
    registered the nullifier hash, and no entry of the log carries exactly
    the string [toHex(deposit.commitment)], [generateMerkleProof] fails with
    "The deposit is not found in the tree". *)
Theorem absent_commitment_not_found (contract : Contract) (deposit : Deposit) :
  isKnownRoot contract (toHex32 (reconstructedRoot lib contract)) = true ->
  isSpent contract (toHex32 (nullifierHash deposit)) = false ->
  (forall e, In e (getPastEvents contract (deployedBlock contract)) ->
     eventCommitment e <> toHex32 (commitment deposit)) ->
  generateMerkleProof lib contract deposit = Err NotFound.
Proof.
  intros Hknown Hspent Habsent.
  unfold generateMerkleProof. unfold reconstructedRoot, treeLeaves in Hknown.
  rewrite Hknown, Hspent. cbn [Bool.eqb assert bind].
  rewrite find_absent; [reflexivity|].
  intros e He. apply String.eqb_neq, Habsent. now apply sortedEvents_In.
Qed.

(** X4.  When the ledger knows the reconstructed root, has not registered
    the nullifier hash, and some entry of the log carries the commitment,
    [generateMerkleProof] asks the tree for the path of the least leaf index
    among the entries that carry it (leaf indices not being negative), and
    returns that path. *)
Theorem present_commitment_path (contract : Contract) (deposit : Deposit)
    (e : DepositEvent) :
  isKnownRoot contract (toHex32 (reconstructedRoot lib contract)) = true ->
  isSpent contract (toHex32 (nullifierHash deposit)) = false ->
  (forall e', In e' (getPastEvents contract (deployedBlock contract)) ->
     0 <= leafIndex e') ->
  In e (getPastEvents contract (deployedBlock contract)) ->
  eventCommitment e = toHex32 (commitment deposit) ->
  exists e0,
    In e0 (getPastEvents contract (deployedBlock contract))
    /\ eventCommitment e0 = toHex32 (commitment deposit)
    /\ (forall e', In e' (getPastEvents contract (deployedBlock contract)) ->
          eventCommitment e' = toHex32 (commitment deposit) ->
          leafIndex e0 <= leafIndex e')
    /\ generateMerkleProof lib contract deposit
       = match treePath lib
                 (newTree lib MERKLE_TREE_HEIGHT (treeLeaves contract))
                 (leafIndex e0) with
         | Some p => Ok p
         | None => Err IndexOutOfRange
         end.
Proof.
  intros Hknown Hspent Hnonneg Hin Hcarries.
  set (carries := fun e' : DepositEvent =>
                    String.eqb (eventCommitment e') (toHex32 (commitment deposit))).
  destruct (find_present carries (sortedEvents contract) e) as [e0 Hfind].
  { now apply sortedEvents_In. }
  { apply String.eqb_eq. exact Hcarries. }
  pose proof (find_some _ _ Hfind) as [Hin0 Hc0].
  apply sortedEvents_In in Hin0. apply String.eqb_eq in Hc0.
  exists e0. split; [exact Hin0|]. split; [exact Hc0|]. split.
  - intros e' Hin' Hc'.
    apply (find_least carries (sortedEvents contract) e0).
    + apply arraySort_sorted.
    + exact Hfind.
    + now apply sortedEvents_In.
    + apply String.eqb_eq. exact Hc'.
  - unfold generateMerkleProof. unfold reconstructedRoot, treeLeaves in Hknown.
    rewrite Hknown, Hspent. cbn [Bool.eqb assert bind].
    fold carries. rewrite Hfind.
    destruct (Z.leb_spec 0 (leafIndex e0)) as [_|Hneg].
    + reflexivity.
    + specialize (Hnonneg e0 Hin0). lia.
Qed.

(** X5.  The outcome of [generateMerkleProof] does not depend on the order
    in which the ledger delivers the log, when the leaf index determines the
    commitment: a ledger that delivers the same entries in another order and
    answers [isKnownRoot] and [isSpent] alike gives the same path or the
    same failure. *)
Theorem proof_independent_of_delivery (contract contract' : Contract)
    (deposit : Deposit) :
  Permutation (getPastEvents contract (deployedBlock contract))
              (getPastEvents contract' (deployedBlock contract')) ->
  indexDeterminesCommitment (getPastEvents contract (deployedBlock contract)) ->
  (forall r, isKnownRoot contract' r = isKnownRoot contract r) ->
  (forall h, isSpent contract' h = isSpent contract h) ->
  generateMerkleProof lib contract' deposit
  = generateMerkleProof lib contract deposit.
Proof.
  intros P F Hknown Hspent. unfold generateMerkleProof.
  rewrite (sortedEvents_delivery contract contract' P F), Hknown, Hspent.
  reflexivity.
Qed.

End LocateFacts.

(** X6.  A log that the ledger delivers in ascending order of leaf index is
    handed to the tree constructor as delivered. *)
Theorem ordered_log_unchanged (contract : Contract) :
  StronglySorted leIndex (getPastEvents contract (deployedBlock contract)) ->
  sortedEvents contract = getPastEvents contract (deployedBlock contract)
  /\ treeLeaves contract
     = map eventCommitment (getPastEvents contract (deployedBlock contract)).
Proof.
  intros Hsorted. unfold treeLeaves, sortedEvents.
  now rewrite (arraySort_sorted_id _ Hsorted).
Qed.

(** X3, at a log of three deposits none of which is the one looked for. *)
Lemma absent_commitment_not_found_witness :
  generateMerkleProof exampleLib (exampleContract logA true false) blankDeposit
  = Err NotFound.
Proof.
  apply (absent_commitment_not_found exampleLib
           (exampleContract logA true false) blankDeposit).
  - reflexivity.
  - reflexivity.
  - intros e He. cbn [exampleContract getPastEvents deployedBlock logA In] in He.
    destruct He as [<-|[<-|[<-|[]]]]; vm_compute; discriminate.
Defined.

(** X4, at a log that carries the commitment at the leaf indices 3 and 1:
    the path is asked for leaf 1. *)
Lemma present_commitment_path_witness :
  exists e0,
    In e0 twiceLog
    /\ eventCommitment e0 = toHex32 (commitment sampleDeposit)
    /\ (forall e', In e' twiceLog ->
          eventCommitment e' = toHex32 (commitment sampleDeposit) ->
          leafIndex e0 <= leafIndex e')
    /\ generateMerkleProof exampleLib (exampleContract twiceLog true false)
         sampleDeposit
       = match treePath exampleLib
                 (newTree exampleLib MERKLE_TREE_HEIGHT
                    (treeLeaves (exampleContract twiceLog true false)))
                 (leafIndex e0) with
         | Some p => Ok p
         | None => Err IndexOutOfRange
         end.
Proof.
  apply (present_commitment_path exampleLib
           (exampleContract twiceLog true false) sampleDeposit
           (mkEvent 3 (toHex32 (commitment sampleDeposit)))).
  - reflexivity.
  - reflexivity.
  - intros e' He'.
    cbn [exampleContract getPastEvents deployedBlock twiceLog In] in He'.
    destruct He' as [<-|[<-|[<-|[]]]]; cbn [leafIndex]; lia.
  - now left.
  - reflexivity.
Defined.

(** X5, at a log of three deposits delivered in two orders. *)
Lemma proof_independent_of_delivery_witness :
  generateMerkleProof exampleLib (exampleContract logB true false) blankDeposit
  = generateMerkleProof exampleLib (exampleContract logA true false) blankDeposit.
Proof.
  apply (proof_independent_of_delivery exampleLib
           (exampleContract logA true false) (exampleContract logB true false)
           blankDeposit).
  - cbn. eapply perm_trans; [apply perm_skip, perm_swap | apply perm_swap].
  - intros a b Ha Hb. cbn in Ha, Hb.
    destruct Ha as [<-|[<-|[<-|[]]]]; destruct Hb as [<-|[<-|[<-|[]]]];
      cbn; intros E; solve [reflexivity | discriminate E].
  - intros r. reflexivity.
  - intros h. reflexivity.
Defined.

(** X6, at a log of three deposits delivered in order. *)
Lemma ordered_log_unchanged_witness :
  sortedEvents (exampleContract orderedLog true false) = orderedLog
  /\ treeLeaves (exampleContract orderedLog true false)
     = map eventCommitment orderedLog.
Proof.
  apply (ordered_log_unchanged (exampleContract orderedLog true false)).
  cbn. unfold orderedLog.
  repeat (constructor; [|repeat constructor; unfold leIndex; cbn; lia]).
  constructor.
Defined.

(** ** Every way the wait for a receipt can end *)

Section PollingOutcomes.

Variable web3 : Web3.
Variable txHash : string.
Variable attempts : nat.
Variable delay : Z.

(** From any attempt on, [checkForTx] either resolves at the first later
    query that sees a mined receipt, or sees none up to the last query and
    rejects. *)
Lemma checkForTx_outcome (d : nat) :
  forall retryAttempt log,
    (retryAttempt + d = S attempts)%nat ->
    (exists k r,
        (k <= d)%nat
        /\ (forall j, (retryAttempt <= j < retryAttempt + k)%nat ->
              minedReceipt (getTransactionReceipt web3 j txHash) = None)
        /\ minedReceipt (getTransactionReceipt web3 (retryAttempt + k) txHash)
           = Some r
        /\ checkForTx web3 txHash attempts delay retryAttempt log
           = (Ok r, log ++ pollRounds txHash delay k
                        ++ [GetTransactionReceipt txHash]))
    \/ ((forall j, (retryAttempt <= j <= S attempts)%nat ->
            minedReceipt (getTransactionReceipt web3 j txHash) = None)
        /\ checkForTx web3 txHash attempts delay retryAttempt log
           = (Err ConfirmationTimeout,
              log ++ pollRounds txHash delay d
                  ++ [GetTransactionReceipt txHash])).
Proof.
  induction d as [|d IH]; intros retryAttempt log Hd.
  - destruct (minedReceipt (getTransactionReceipt web3 retryAttempt txHash))
      as [r|] eqn:E.
    + left. exists 0%nat, r. split; [lia|]. split; [intros j Hj; lia|].
      rewrite Nat.add_0_r. split; [exact E|].
      apply checkForTx_found; [lia | intros j Hj; lia | now rewrite Nat.add_0_r].
    + right. assert (N : forall j, (retryAttempt <= j <= S attempts)%nat ->
                 minedReceipt (getTransactionReceipt web3 j txHash) = None).
      { intros j Hj. replace j with retryAttempt by lia. exact E. }
      split; [exact N|]. apply checkForTx_timeout; [lia | exact N].
  - destruct (minedReceipt (getTransactionReceipt web3 retryAttempt txHash))
      as [r|] eqn:E.
    + left. exists 0%nat, r. split; [lia|]. split; [intros j Hj; lia|].
      rewrite Nat.add_0_r. split; [exact E|].
      apply checkForTx_found; [lia | intros j Hj; lia | now rewrite Nat.add_0_r].
    + destruct (IH (S retryAttempt) (log ++ pollRound txHash delay))
        as [(k & r & Hk & Hnone & Hsome & Hrun)|[Hnone Hrun]]; [lia| |].
      * assert (N : forall j, (retryAttempt <= j < retryAttempt + S k)%nat ->
                   minedReceipt (getTransactionReceipt web3 j txHash) = None).
        { intros j Hj. destruct (Nat.eq_dec j retryAttempt) as [->|Hne];
            [exact E | apply Hnone; lia]. }
        assert (M : minedReceipt
                      (getTransactionReceipt web3 (retryAttempt + S k) txHash)
                    = Some r)
          by (replace (retryAttempt + S k)%nat with (S retryAttempt + k)%nat
                by lia; exact Hsome).
        left. exists (S k), r. split; [lia|]. split; [exact N|].
        split; [exact M|]. apply checkForTx_found; [lia | exact N | exact M].
      * right. assert (N : forall j, (retryAttempt <= j <= S attempts)%nat ->
                   minedReceipt (getTransactionReceipt web3 j txHash) = None).
        { intros j Hj. destruct (Nat.eq_dec j retryAttempt) as [->|Hne];
            [exact E | apply Hnone; lia]. }
        split; [exact N|]. apply checkForTx_timeout; [lia | exact N].
Qed.

(** X7.  How a wait that settles has gone.  If [waitForTxReceipt] resolves
    with a receipt, that receipt has a block number and was the answer to a
    query among the first [attempts + 2], no earlier query having seen one,
    and the queries were [delay] apart.  If it rejects, it rejects with "tx
    was not mined", after exactly [attempts + 2] queries none of which saw a
    receipt with a block number.  It never makes more than [attempts + 2]
    queries.  (A wait in which the node rejects a query settles in neither
    way; the node of the model answers every query.) *)
Theorem waitForTxReceipt_outcomes :
  (forall r,
     fst (run (waitForTxReceipt web3 txHash attempts delay)) = Ok r ->
     exists k,
       (k <= S attempts)%nat
       /\ (forall j, (j < k)%nat ->
             minedReceipt (getTransactionReceipt web3 j txHash) = None)
       /\ minedReceipt (getTransactionReceipt web3 k txHash) = Some r
       /\ snd (run (waitForTxReceipt web3 txHash attempts delay))
          = pollRounds txHash delay k ++ [GetTransactionReceipt txHash])
  /\ (forall e,
        fst (run (waitForTxReceipt web3 txHash attempts delay)) = Err e ->
        e = ConfirmationTimeout
        /\ (forall j, (j <= S attempts)%nat ->
              minedReceipt (getTransactionReceipt web3 j txHash) = None)
        /\ snd (run (waitForTxReceipt web3 txHash attempts delay))
           = pollRounds txHash delay (S attempts)
               ++ [GetTransactionReceipt txHash])
  /\ (receiptQueries (snd (run (waitForTxReceipt web3 txHash attempts delay)))
      <= attempts + 2)%nat.
Proof.
  unfold run, waitForTxReceipt.
  destruct (checkForTx_outcome (S attempts) 0 [] eq_refl)
    as [(k & r & Hk & Hnone & Hsome & Hrun)|[Hnone Hrun]];
    cbn [app Nat.add] in *; rewrite Hrun; cbn [fst snd].
  - split; [|split].
    + intros r' E. assert (r' = r) by congruence. subst r'.
      exists k. split; [exact Hk|].
      split; [intros j Hj; apply Hnone; lia|]. split; [exact Hsome | reflexivity].
    + intros e E. discriminate E.
    + rewrite receiptQueries_pollRounds. lia.
  - split; [|split].
    + intros r E. discriminate E.
    + intros e E. split; [congruence|].
      split; [intros j Hj; apply Hnone; lia | reflexivity].
    + rewrite receiptQueries_pollRounds. lia.
Qed.

End PollingOutcomes.

(** X7, at a node whose fourth answer is the first with a block number. *)
Lemma waitForTxReceipt_outcomes_witness :
  exists k,
    (k <= 61)%nat
    /\ (forall j, (j < k)%nat ->
          minedReceipt (getTransactionReceipt slowNode j "0xaa") = None)
    /\ minedReceipt (getTransactionReceipt slowNode k "0xaa")
       = Some (mkReceipt "0xaa" (Some 812))
    /\ snd (run (waitForTxReceipt slowNode "0xaa" 60 1000))
       = pollRounds "0xaa" 1000 k ++ [GetTransactionReceipt "0xaa"].
Proof.
  destruct (waitForTxReceipt_outcomes slowNode "0xaa" 60 1000) as [Hok _].
  apply (Hok (mkReceipt "0xaa" (Some 812))). vm_compute. reflexivity.
Defined.

(** ** How a relayed withdrawal that settles has gone *)

Section RelayOutcomes.

Variable pedersenHash : Buffer -> Z.
Variable lib : MerkleTreeLib.
Variable prove : CircuitInput -> string.
Variable tornado : Contract.
Variable web3 : Web3.
Variable relay : Relay.

(** X8.  How a relayed withdrawal that settles has gone, for a quote from
    0 to 2^53.  If [withdrawRelay] returns, one body was POSTed to [/relay],
    made of the contract address and the proof and arguments that
    [generateProof] returned for the relayer address and the fee, and the
    receipt it got has a block number and answered one of at most 62 queries
    for the hash the relay gave.  If it fails with "tx was not mined", that
    body was POSTed and 62 queries followed: the request had been handed to
    the relay.  If it fails with any other of the failures of the client,
    nothing was POSTed: only the status had been asked for. *)
Theorem withdrawRelay_outcomes (note recipient relayUrl : string) :
  0 <= gasPrices_fast (status relay) <= 2 ^ 53 ->
  (forall r,
     fst (run (withdrawRelay pedersenHash lib prove tornado web3 relay
                 note recipient relayUrl)) = Ok r ->
     exists pa k,
       generateProof pedersenHash lib prove tornado note
         (JsString recipient) (JsString (relayerAddress (status relay)))
         (JsNumber (gasPrices_fast (status relay) * 1000000000 * 1000000))
         (JsNumber 0) = Ok pa
       /\ (k <= 61)%nat
       /\ minedReceipt
            (getTransactionReceipt web3 k
               (relayTxHash relay
                  (mkBody (address tornado) (proof pa) (args pa))))
          = Some r
       /\ snd (run (withdrawRelay pedersenHash lib prove tornado web3 relay
                      note recipient relayUrl))
          = [HttpGet (relayUrl +++ "/status");
             HttpPost (relayUrl +++ "/relay")
               (mkBody (address tornado) (proof pa) (args pa))]
            ++ pollRounds
                 (relayTxHash relay
                    (mkBody (address tornado) (proof pa) (args pa)))
                 1000 k
            ++ [GetTransactionReceipt
                  (relayTxHash relay
                     (mkBody (address tornado) (proof pa) (args pa)))])
  /\ (fst (run (withdrawRelay pedersenHash lib prove tornado web3 relay
                  note recipient relayUrl)) = Err ConfirmationTimeout ->
      exists pa,
        generateProof pedersenHash lib prove tornado note
          (JsString recipient) (JsString (relayerAddress (status relay)))
          (JsNumber (gasPrices_fast (status relay) * 1000000000 * 1000000))
          (JsNumber 0) = Ok pa
        /\ snd (run (withdrawRelay pedersenHash lib prove tornado web3 relay
                       note recipient relayUrl))
           = [HttpGet (relayUrl +++ "/status");
              HttpPost (relayUrl +++ "/relay")
                (mkBody (address tornado) (proof pa) (args pa))]
             ++ pollRounds
                  (relayTxHash relay
                     (mkBody (address tornado) (proof pa) (args pa)))
                  1000 61
             ++ [GetTransactionReceipt
                   (relayTxHash relay
                      (mkBody (address tornado) (proof pa) (args pa)))])
  /\ (forall e,
        fst (run (withdrawRelay pedersenHash lib prove tornado web3 relay
                    note recipient relayUrl)) = Err e ->
        e <> ConfirmationTimeout ->
        snd (run (withdrawRelay pedersenHash lib prove tornado web3 relay
                    note recipient relayUrl))
        = [HttpGet (relayUrl +++ "/status")]).
Proof.
  intros [Hq _].
  pose proof (relayFee_of_quote (status relay) Hq) as Hfee.
  destruct (strictEq (netId (status relay)) (netGetId web3)
            || strictEq (netId (status relay)) (JsString "*")) eqn:Hnet.
  2: { assert (Hrun : run (withdrawRelay pedersenHash lib prove tornado web3
                             relay note recipient relayUrl)
                      = (Err NetworkMismatch, [HttpGet (relayUrl +++ "/status")])).
       { unfold run, withdrawRelay, bindIO, request, lift.
         cbn [app]. rewrite Hnet. reflexivity. }
       rewrite Hrun. cbn [fst snd]. split; [|split].
       - intros r E. discriminate E.
       - intros E. discriminate E.
       - intros e _ _. reflexivity. }
  destruct (generateProof pedersenHash lib prove tornado note
              (JsString recipient) (JsString (relayerAddress (status relay)))
              (JsNumber (gasPrices_fast (status relay) * 1000000000 * 1000000))
              (JsNumber 0)) as [pa|e0] eqn:Hproof.
  2: { assert (Hrun : run (withdrawRelay pedersenHash lib prove tornado web3
                             relay note recipient relayUrl)
                      = (Err e0, [HttpGet (relayUrl +++ "/status")])).
       { unfold run, withdrawRelay, bindIO, request, lift.
         cbn [app]. rewrite Hnet. cbn [assert]. rewrite Hfee, Hproof.
         reflexivity. }
       rewrite Hrun. cbn [fst snd]. split; [|split].
       - intros r E. discriminate E.
       - intros E. exfalso. assert (e0 = ConfirmationTimeout) by congruence.
         subst e0. apply generateProof_error in Hproof.
         destruct Hproof as [?|[?|[?|[?|?]]]]; discriminate.
       - intros e _ _. reflexivity. }
  rewrite (withdrawRelay_posts pedersenHash lib prove tornado web3 relay
             note recipient relayUrl _ pa Hnet Hfee Hproof).
  unfold waitForTxReceipt.
  set (body := mkBody (address tornado) (proof pa) (args pa)).
  destruct (checkForTx_outcome web3 (relayTxHash relay body) 60 1000 61 0
              [HttpGet (relayUrl +++ "/status");
               HttpPost (relayUrl +++ "/relay") body] eq_refl)
    as [(k & r & Hk & _ & Hsome & Hrun)|[_ Hrun]];
    rewrite Hrun; cbn [fst snd Nat.add] in *.
  - split; [|split].
    + intros r' E. assert (r' = r) by congruence. subst r'.
      exists pa, k. split; [reflexivity|]. split; [exact Hk|].
      split; [exact Hsome | reflexivity].
    + intros E. discriminate E.
    + intros e E. discriminate E.
  - split; [|split].
    + intros r E. discriminate E.
    + intros _. exists pa. split; reflexivity.
    + intros e E Hne. exfalso. apply Hne. congruence.
Qed.

End RelayOutcomes.

(** X8, at a relay that quotes 5 gwei and a node that does not know the
    network of the relay: nothing is POSTed. *)
Lemma withdrawRelay_outcomes_witness :
  snd (run (withdrawRelay exampleHash exampleLib exampleProve sampleLedger
              otherNode sampleRelay sampleNote usageRecipient localRelayUrl))
  = [HttpGet (localRelayUrl +++ "/status")].
Proof.
  destruct (withdrawRelay_outcomes exampleHash exampleLib exampleProve
              sampleLedger otherNode sampleRelay sampleNote usageRecipient
              localRelayUrl) as (_ & _ & Hearly).
  - split; [vm_compute; discriminate | vm_compute; discriminate].
  - apply (Hearly NetworkMismatch); [reflexivity | discriminate].
Defined.

(** ** Numbers that fit the width of [toHex] *)

Lemma allHex_append (s t : string) : allHex (s +++ t) = allHex s && allHex t.
Proof.
  induction s as [|c s IH]; cbn [String.append allHex]; [reflexivity|].
  now rewrite IH, andb_assoc.
Qed.

Lemma allHex_zeros (k : nat) : allHex (replicate k "0") = true.
Proof. induction k as [|k IH]; cbn [replicate allHex]; [reflexivity | exact IH]. Qed.

Lemma allHex_digits (radix : Z) (fuel : nat) :
  2 <= radix <= 16 -> forall n, 0 <= n -> allHex (digits radix fuel n) = true.
Proof.
  intros Hr. induction fuel as [|fuel IH]; intros n Hn; cbn [digits]; [reflexivity|].
  destruct (Z.ltb_spec n radix) as [Hlt|Hge].
  - cbn [allHex]. now rewrite isHexDigit_digitChar by lia.
  - rewrite allHex_append, IH by (apply Z.div_pos; lia).
    cbn [allHex]. pose proof (Z.mod_pos_bound n radix ltac:(lia)).
    now rewrite isHexDigit_digitChar by lia.
Qed.

(** A number below [radix^k] has at most [k] digits. *)
Lemma digits_length (radix : Z) (fuel : nat) :
  2 <= radix ->
  forall n k, 0 <= n < radix ^ Z.of_nat k -> (1 <= k)%nat ->
    (String.length (digits radix fuel n) <= k)%nat.
Proof.
  intros Hr. induction fuel as [|fuel IH]; intros n k Hn Hk; cbn [digits].
  - cbn. lia.
  - destruct (Z.ltb_spec n radix) as [Hlt|Hge]; [cbn; lia|].
    rewrite append_length. cbn [String.length].
    destruct k as [|[|k]]; [lia| |].
    + change (radix ^ Z.of_nat 1) with (radix ^ 1) in Hn.
      rewrite Z.pow_1_r in Hn. lia.
    + assert (String.length (digits radix fuel (n / radix)) <= S k)%nat; [|lia].
      apply IH; [|lia]. split; [apply Z.div_pos; lia|].
      apply Z.div_lt_upper_bound; [lia|].
      rewrite (Nat2Z.inj_succ (S k)), Z.pow_succ_r in Hn by lia. lia.
Qed.

Lemma pow256_16 (len : nat) : 256 ^ Z.of_nat len = 16 ^ Z.of_nat (len * 2).
Proof.
  rewrite Nat2Z.inj_mul, Z.mul_comm, Z.pow_mul_r by lia. reflexivity.
Qed.

(** The case of an address: a number that fits 20 bytes. *)
Lemma toHex_exact_width_aux (a : Z) :
  0 <= a < 256 ^ 20 ->
  addressFormat (toHex (OfNumber a) 20) = true
  /\ bigIntOfString (toHex (OfNumber a) 20) = Ok a.
Proof.
  intros [Ha0 Ha1].
  assert (Hd : (String.length (toString 16 a) <= 40)%nat).
  { unfold toString. destruct (Z.ltb_spec a 0) as [?|_]; [lia|].
    apply digits_length; [lia | | lia].
    change (16 ^ Z.of_nat 40) with (256 ^ 20). lia. }
  assert (Hh : allHex (toString 16 a) = true).
  { unfold toString. destruct (Z.ltb_spec a 0) as [?|_]; [lia|].
    apply allHex_digits; lia. }
  split; [|now apply bigIntOfString_toHex].
  unfold addressFormat, toHex, hexText, matchesHex. cbn [String.append].
  rewrite padStart_length.
  replace (Nat.max (20 * 2) (String.length (toString 16 a))) with 40%nat by lia.
  unfold padStart. now rewrite allHex_append, allHex_zeros, Hh.
Qed.

(** X9.  For a number that fits [length] bytes, [toHex] gives exactly [0x]
    and [2 * length] hex digits, and [bigInt] reads the number back from
    them.  (C10 shows that a larger number gets more digits.) *)
Theorem toHex_exact_width (n : Z) (length : nat) :
  (1 <= length)%nat -> 0 <= n < 256 ^ Z.of_nat length ->
  matchesHex (length * 2) (toHex (OfNumber n) length) = true
  /\ String.length (toHex (OfNumber n) length) = (2 + length * 2)%nat
  /\ bigIntOfString (toHex (OfNumber n) length) = Ok n.
Proof.
  intros Hlen [Hn0 Hn1].
  assert (Hd : (String.length (toString 16 n) <= length * 2)%nat).
  { unfold toString. destruct (Z.ltb_spec n 0) as [?|_]; [lia|].
    apply digits_length; [lia | | lia]. rewrite <- pow256_16. lia. }
  assert (Hh : allHex (toString 16 n) = true).
  { unfold toString. destruct (Z.ltb_spec n 0) as [?|_]; [lia|].
    apply allHex_digits; lia. }
  assert (Hl : String.length (padStart (toString 16 n) (length * 2) "0")
               = (length * 2)%nat)
    by (rewrite padStart_length; lia).
  split; [|split].
  - unfold toHex, hexText, matchesHex. cbn [String.append].
    rewrite Hl, Nat.eqb_refl. unfold padStart.
    now rewrite allHex_append, allHex_zeros, Hh.
  - unfold toHex, hexText. cbn [String.append String.length]. rewrite Hl. lia.
  - now apply bigIntOfString_toHex.
Qed.

(** X9, at the largest 20-byte address. *)
Lemma toHex_exact_width_witness :
  matchesHex (20 * 2) (toHex (OfNumber (256 ^ 20 - 1)) 20) = true
  /\ String.length (toHex (OfNumber (256 ^ 20 - 1)) 20) = (2 + 20 * 2)%nat
  /\ bigIntOfString (toHex (OfNumber (256 ^ 20 - 1)) 20) = Ok (256 ^ 20 - 1).
Proof.
  apply (toHex_exact_width (256 ^ 20 - 1) 20).
  - lia.
  - split; [vm_compute; discriminate | reflexivity].
Defined.

(** ** The arguments of the ledger call *)

Lemma parseDigits_bound (s : string) :
  allHex s = true ->
  forall acc v, 0 <= acc -> parseDigits 16 acc s = Some v ->
    0 <= v < (acc + 1) * 16 ^ Z.of_nat (String.length s).
Proof.
  induction s as [|c s IH]; intros Hhex acc v Hacc Hv; cbn [parseDigits] in Hv.
  - injection Hv as <-. cbn. lia.
  - cbn [allHex] in Hhex. apply andb_prop in Hhex as [Hc Hs].
    unfold isHexDigit in Hc. destruct (digitValue c) as [d|] eqn:E; [|discriminate].
    apply digitValue_range in E.
    destruct (Z.ltb_spec d 16) as [_|?]; [|lia].
    apply (IH Hs) in Hv; [|lia]. cbn [String.length].
    rewrite Nat2Z.inj_succ, Z.pow_succ_r by lia.
    assert (Hp : 0 < 16 ^ Z.of_nat (String.length s))
      by (apply Z.pow_pos_nonneg; lia).
    split; [lia|]. destruct Hv as [_ Hv].
    eapply Z.lt_le_trans; [exact Hv|].
    replace ((acc + 1) * (16 * 16 ^ Z.of_nat (String.length s)))
      with (((acc + 1) * 16) * 16 ^ Z.of_nat (String.length s)) by ring.
    apply Z.mul_le_mono_nonneg_r; lia.
Qed.

(** A well-formed address denotes a number that fits 20 bytes. *)
Lemma bigIntOfString_address_fits (s : string) :
  addressFormat s = true ->
  exists a, bigIntOfString s = Ok a /\ 0 <= a < 256 ^ 20.
Proof.
  intros H. apply matchesHex_inv in H as (t & -> & Hlen & Hhex).
  destruct (parseDigits_allHex t Hhex 0 ltac:(lia)) as (a & Ha & _).
  pose proof (parseDigits_bound t Hhex 0 a ltac:(lia) Ha) as Hb.
  rewrite Hlen in Hb. exists a. split.
  - unfold bigIntOfString. cbn [String.append].
    destruct t as [|c t]; [discriminate Hlen|].
    cbn [parseInteger]. now rewrite Ha.
  - change (256 ^ 20) with ((0 + 1) * 16 ^ Z.of_nat 40). exact Hb.
Qed.

Section ProofArguments.

Variable pedersenHash : Buffer -> Z.
Variable lib : MerkleTreeLib.
Variable prove : CircuitInput -> string.

(** What a successful [generateProof] went through. *)
Lemma generateProof_Ok_inv (contract : Contract) (note : string)
    (recipient relayer fee refund : JsValue) (pa : ProofArgs) :
  generateProof pedersenHash lib prove contract note recipient relayer fee refund
    = Ok pa ->
  exists d p r rl f rf,
    decodeNote pedersenHash note = Ok d
    /\ generateMerkleProof lib contract d = Ok p
    /\ bigInt recipient = Ok r /\ bigInt relayer = Ok rl
    /\ bigInt fee = Ok f /\ bigInt refund = Ok rf
    /\ pa = mkProofArgs
              (prove (mkInput (root p) (nullifierHash d) r rl f rf
                        (nullifier d) (secret d)
                        (path_elements p) (path_index p)))
              [ toHex32 (root p); toHex32 (nullifierHash d);
                toHex (OfNumber r) 20; toHex (OfNumber rl) 20;
                toHex32 f; toHex32 rf ].
Proof.
  unfold generateProof. intros E.
  apply bind_Ok in E as (d & Hd & E). apply bind_Ok in E as (p & Hp & E).
  apply bind_Ok in E as (r & Hr & E). apply bind_Ok in E as (rl & Hrl & E).
  apply bind_Ok in E as (f & Hf & E). apply bind_Ok in E as (rf & Hrf & E).
  injection E as <-. exists d, p, r, rl, f, rf. repeat split; assumption.
Qed.

(** X10.  When [generateProof] succeeds for a recipient given as a
    well-formed address, the proof is the backend's proof for an input whose
    nullifier, secret and nullifier hash are those of the decoded note and
    whose root and path are those of [generateMerkleProof], and the six
    arguments are the printed public fields of that same input.  The third
    argument is again a well-formed address, [0x] and 40 lower-case digits,
    and denotes the number the recipient denotes. *)
Theorem generateProof_publishes_its_input (contract : Contract)
    (note recipient : string) (relayer fee refund : JsValue) (pa : ProofArgs) :
  addressFormat recipient = true ->
  generateProof pedersenHash lib prove contract note (JsString recipient)
    relayer fee refund = Ok pa ->
  exists d p input,
    decodeNote pedersenHash note = Ok d
    /\ generateMerkleProof lib contract d = Ok p
    /\ in_root input = root p
    /\ in_pathElements input = path_elements p
    /\ in_pathIndices input = path_index p
    /\ in_nullifier input = nullifier d
    /\ in_secret input = secret d
    /\ in_nullifierHash input = nullifierHash d
    /\ bigInt (JsString recipient) = Ok (in_recipient input)
    /\ bigInt relayer = Ok (in_relayer input)
    /\ bigInt fee = Ok (in_fee input)
    /\ bigInt refund = Ok (in_refund input)
    /\ proof pa = prove input
    /\ args pa = [ toHex32 (in_root input); toHex32 (in_nullifierHash input);
                   toHex (OfNumber (in_recipient input)) 20;
                   toHex (OfNumber (in_relayer input)) 20;
                   toHex32 (in_fee input); toHex32 (in_refund input) ]
    /\ addressFormat (nth 2 (args pa) "") = true
    /\ bigInt (JsString (nth 2 (args pa) "")) = bigInt (JsString recipient).
Proof.
  intros Haddr E.
  apply generateProof_Ok_inv in E
    as (d & p & r & rl & f & rf & Hd & Hp & Hr & Hrl & Hf & Hrf & ->).
  destruct (bigIntOfString_address_fits recipient Haddr) as (a & Ha & Hfit).
  cbn [bigInt] in Hr. assert (r = a) by congruence. subst r.
  destruct (toHex_exact_width_aux a) as [Hfmt Hback]; [exact Hfit|].
  exists d, p,
    (mkInput (root p) (nullifierHash d) a rl f rf (nullifier d) (secret d)
       (path_elements p) (path_index p)).
  cbn [in_root in_pathElements in_pathIndices in_nullifier in_secret
       in_nullifierHash in_recipient in_relayer in_fee in_refund
       proof args nth bigInt].
  repeat (split; [first [assumption | reflexivity]|]).
  now rewrite Hback.
Qed.

End ProofArguments.

(** X10, at the withdrawal of [sampleNote] to the recipient of the usage
    text. *)
Lemma generateProof_publishes_its_input_witness :
  exists d p input,
    decodeNote exampleHash sampleNote = Ok d
    /\ generateMerkleProof exampleLib sampleLedger d = Ok p
    /\ in_root input = root p
    /\ in_pathElements input = path_elements p
    /\ in_pathIndices input = path_index p
    /\ in_nullifier input = nullifier d
    /\ in_secret input = secret d
    /\ in_nullifierHash input = nullifierHash d
    /\ bigInt (JsString usageRecipient) = Ok (in_recipient input)
    /\ bigInt (JsNumber 0) = Ok (in_relayer input)
    /\ bigInt (JsNumber 0) = Ok (in_fee input)
    /\ bigInt (JsNumber 0) = Ok (in_refund input)
    /\ proof sampleProofArgs = exampleProve input
    /\ args sampleProofArgs
       = [ toHex32 (in_root input); toHex32 (in_nullifierHash input);
           toHex (OfNumber (in_recipient input)) 20;
           toHex (OfNumber (in_relayer input)) 20;
           toHex32 (in_fee input); toHex32 (in_refund input) ]
    /\ addressFormat (nth 2 (args sampleProofArgs) "") = true
    /\ bigInt (JsString (nth 2 (args sampleProofArgs) ""))
       = bigInt (JsString usageRecipient).
Proof.
  apply (generateProof_publishes_its_input exampleHash exampleLib exampleProve
           sampleLedger sampleNote usageRecipient
           (JsNumber 0) (JsNumber 0) (JsNumber 0) sampleProofArgs);
    vm_compute; reflexivity.
Defined.

(** ** Direct withdrawal *)

Section WithdrawFacts.

Variable pedersenHash : Buffer -> Z.
Variable lib : MerkleTreeLib.
Variable prove : CircuitInput -> string.
Variable tornado : Contract.

(** X11.  [withdraw] sends the withdraw transaction only when the proof has
    been built: when [generateProof] fails, [withdraw] fails in the same way
    and has sent nothing; when it succeeds, exactly one transaction is sent,
    with the proof and the six arguments, of which relayer is the zero
    address and fee and refund are zero on 32 bytes. *)
Theorem withdraw_sends_after_proof (note recipient : string) :
  (forall e,
     generateProof pedersenHash lib prove tornado note (JsString recipient)
       (JsNumber 0) (JsNumber 0) (JsNumber 0) = Err e ->
     run (withdraw pedersenHash lib prove tornado note recipient) = (Err e, []))
  /\ (forall pa,
        generateProof pedersenHash lib prove tornado note (JsString recipient)
          (JsNumber 0) (JsNumber 0) (JsNumber 0) = Ok pa ->
        run (withdraw pedersenHash lib prove tornado note recipient)
          = (Ok tt, [SendWithdraw (proof pa) (args pa)])
        /\ List.length (args pa) = 6%nat
        /\ nth 3 (args pa) "" = "0x" +++ replicate 40 "0"
        /\ nth 4 (args pa) "" = "0x" +++ replicate 64 "0"
        /\ nth 5 (args pa) "" = "0x" +++ replicate 64 "0").
Proof.
  split.
  - intros e E. unfold run, withdraw, bindIO, lift. now rewrite E.
  - intros pa E. split.
    + unfold run, withdraw, bindIO, lift, request. now rewrite E.
    + apply generateProof_Ok_inv in E
        as (d & p & r & rl & f & rf & _ & _ & _ & Hrl & Hf & Hrf & ->).
      cbn [bigInt] in Hrl, Hf, Hrf.
      injection Hrl as <-. injection Hf as <-. injection Hrf as <-.
      cbn [args List.length nth]. repeat split; reflexivity.
Qed.

End WithdrawFacts.

(** X11, at a ledger on which the note is already spent and at one on which
    it can be withdrawn. *)
Lemma withdraw_sends_after_proof_witness :
  run (withdraw exampleHash exampleLib exampleProve
         (exampleContract [] true true) sampleNote usageRecipient)
    = (Err AlreadySpent, [])
  /\ run (withdraw exampleHash exampleLib exampleProve sampleLedger
            sampleNote usageRecipient)
     = (Ok tt, [SendWithdraw (proof sampleProofArgs) (args sampleProofArgs)]).
Proof.
  destruct (withdraw_sends_after_proof exampleHash exampleLib exampleProve
              (exampleContract [] true true) sampleNote usageRecipient)
    as [Hfail _].
  destruct (withdraw_sends_after_proof exampleHash exampleLib exampleProve
              sampleLedger sampleNote usageRecipient) as [_ Hsent].
  split.
  - apply Hfail. vm_compute. reflexivity.
  - apply (Hsent sampleProofArgs). vm_compute. reflexivity.
Defined.

(** ** The command line *)



Section CheckedWithdrawal.

Variable pedersenHash : Buffer -> Z.
Variable lib : MerkleTreeLib.
Variable prove : CircuitInput -> string.
Variable tornado : Contract.

(** X13.  For a note and a recipient that pass the checks of the command
    line, building the proof of a direct withdrawal can fail only in the
    validation against the ledger: the note decodes to a deposit whose
    preimage is the 62 bytes of the note, and [generateProof] fails exactly
    when [generateMerkleProof] fails for that deposit, with the same
    failure. *)
Theorem checked_withdrawal_fails_on_ledger_only (note recipient : string) :
  noteFormat note = true -> addressFormat recipient = true ->
  exists d,
    decodeNote pedersenHash note = Ok d
    /\ preimage d = bufferFromHex (dropChars 2 note)
    /\ List.length (preimage d) = 62%nat
    /\ (forall e,
          generateProof pedersenHash lib prove tornado note
            (JsString recipient) (JsNumber 0) (JsNumber 0) (JsNumber 0) = Err e
          <-> generateMerkleProof lib tornado d = Err e)
    /\ (forall e,
          generateProof pedersenHash lib prove tornado note
            (JsString recipient) (JsNumber 0) (JsNumber 0) (JsNumber 0) = Err e ->
          e = TreeCorrupted \/ e = AlreadySpent \/ e = NotFound
          \/ e = IndexOutOfRange).
Proof.
  intros Hnote Haddr.
  destruct (decodeNote_wellformed pedersenHash note Hnote)
    as (d & Hd & Hpre & Hlen & _).
  destruct (bigIntOfString_address recipient Haddr) as (a & Ha & _).
  assert (Hiff : forall e,
             generateProof pedersenHash lib prove tornado note
               (JsString recipient) (JsNumber 0) (JsNumber 0) (JsNumber 0) = Err e
             <-> generateMerkleProof lib tornado d = Err e).
  { intros e. unfold generateProof. rewrite Hd. cbn [bind].
    destruct (generateMerkleProof lib tornado d) as [p|e'].
    - cbn [bind bigInt]. rewrite Ha. cbn [bind]. split; discriminate.
    - cbn [bind]. split; intros E; injection E as ->; reflexivity. }
  exists d. split; [exact Hd|]. split; [exact Hpre|]. split; [exact Hlen|].
  split; [exact Hiff|].
  intros e E. apply Hiff in E. now apply generateMerkleProof_error in E.
Qed.

End CheckedWithdrawal.

(** X13, at [sampleNote] and the recipient of the usage text. *)
Lemma checked_withdrawal_fails_on_ledger_only_witness :
  exists d,
    decodeNote exampleHash sampleNote = Ok d
    /\ preimage d = bufferFromHex (dropChars 2 sampleNote)
    /\ List.length (preimage d) = 62%nat
    /\ (forall e,
          generateProof exampleHash exampleLib exampleProve sampleLedger
            sampleNote (JsString usageRecipient)
            (JsNumber 0) (JsNumber 0) (JsNumber 0) = Err e
          <-> generateMerkleProof exampleLib sampleLedger d = Err e)
    /\ (forall e,
          generateProof exampleHash exampleLib exampleProve sampleLedger
            sampleNote (JsString usageRecipient)
            (JsNumber 0) (JsNumber 0) (JsNumber 0) = Err e ->
          e = TreeCorrupted \/ e = AlreadySpent \/ e = NotFound
          \/ e = IndexOutOfRange).
Proof.
  apply (checked_withdrawal_fails_on_ledger_only exampleHash exampleLib
           exampleProve sampleLedger sampleNote usageRecipient); reflexivity.
Defined.

(** ** What decoding does not look at *)

Lemma bufferFromHex_app (n : nat) :
  forall s t, String.length s = (2 * n)%nat -> allHex s = true ->
    bufferFromHex (s +++ t) = bufferFromHex s ++ bufferFromHex t.
Proof.
  induction n as [|n IH]; intros s t Hlen Hhex.
  - destruct s; [reflexivity | discriminate].
  - destruct s as [|a [|b rest]]; try (simpl in Hlen; lia).
    cbn [allHex] in Hhex. apply andb_prop in Hhex as [Ha Hhex].
    apply andb_prop in Hhex as [Hb Hhex].
    unfold isHexDigit in Ha, Hb. cbn [String.append bufferFromHex].
    destruct (digitValue a); [|discriminate].
    destruct (digitValue b); [|discriminate].
    cbn [app]. f_equal. apply IH; [simpl in Hlen; lia | assumption].
Qed.

Lemma slice_app_within {A} (start stop : nat) (l more : list A) :
  (stop <= List.length l)%nat -> slice start stop (l ++ more) = slice start stop l.
Proof.
  intros H. unfold slice.
  destruct (Nat.le_gt_cases start (List.length l)) as [Hs|Hs].
  - rewrite skipn_app. replace (start - List.length l)%nat with 0%nat by lia.
    cbn [skipn]. rewrite firstn_app, length_skipn.
    replace (stop - start - (List.length l - start))%nat with 0%nat by lia.
    cbn [firstn]. apply app_nil_r.
  - replace (stop - start)%nat with 0%nat by lia. reflexivity.
Qed.

Section DecodeBlindSpots.

Variable pedersenHash : Buffer -> Z.

(** X14.  Decoding does not look at the first two characters of the note,
    nor at anything after the 124 hex digits of a well-formed note: a
    well-formed note followed by any text decodes to the deposit of the note
    itself.  (Only the check of the command line keeps such strings out.) *)
Theorem decodeNote_ignores_prefix_and_tail :
  (forall a b rest,
     decodeNote pedersenHash (String a (String b rest))
     = decodeNote pedersenHash ("0x" +++ rest))
  /\ (forall note tail,
        noteFormat note = true ->
        decodeNote pedersenHash (note +++ tail) = decodeNote pedersenHash note).
Proof.
  split; [reflexivity|].
  intros note tail Hfmt.
  apply matchesHex_inv in Hfmt as (t & -> & Hlen & Hhex).
  unfold decodeNote. cbn [String.append dropChars].
  rewrite (bufferFromHex_app 62 t tail) by (try rewrite Hlen; auto).
  assert (L : List.length (bufferFromHex t) = 62%nat)
    by (apply bufferFromHex_length; [rewrite Hlen; reflexivity | exact Hhex]).
  rewrite !slice_app_within by (rewrite L; lia). reflexivity.
Qed.

End DecodeBlindSpots.

(** X14, at [sampleNote] followed by four more hex digits. *)
Lemma decodeNote_ignores_prefix_and_tail_witness :
  decodeNote exampleHash (sampleNote +++ "f400") = decodeNote exampleHash sampleNote.
Proof.
  exact (proj2 (decodeNote_ignores_prefix_and_tail exampleHash)
           sampleNote "f400" eq_refl).
Defined.

Section Reencoding.

Variable pedersenHash : Buffer -> Z.

(** Decoding the note of two scalars that fit 31 bytes. *)
Lemma decodeNote_encodeNote_fits (n s : Z) :
  fits n 31 -> fits s 31 ->
  noteFormat (encodeNote (leBytes n 31 ++ leBytes s 31)) = true
  /\ decodeNote pedersenHash (encodeNote (leBytes n 31 ++ leBytes s 31))
     = createDeposit pedersenHash n s.
Proof.
  intros Hn Hs.
  pose proof (leBytes_length 31 n) as Ln. pose proof (leBytes_length 31 s) as Ls.
  assert (L : List.length (leBytes n 31 ++ leBytes s 31) = 62%nat)
    by now rewrite length_app, Ln, Ls.
  assert (O : octets (leBytes n 31 ++ leBytes s 31))
    by (apply Forall_app; split; apply leBytes_octets).
  rewrite (encodeNote_62 _ L). split.
  - unfold noteFormat, matchesHex. cbn [String.append].
    rewrite bufferToHex_length, L, (allHex_bufferToHex _ O). reflexivity.
  - unfold decodeNote. cbn [String.append dropChars].
    rewrite (bufferFromHex_bufferToHex _ O).
    rewrite (slice_app_l _ _ 31 Ln), (slice_app_r _ _ 31 62 Ln Ls).
    now rewrite !leBuff2int_leBytes.
Qed.

(** X15.  Whatever string was decoded, well-formed or not, printing the
    preimage of the resulting deposit as a note gives a well-formed note
    that decodes to the same deposit. *)
Theorem reencoded_note_decodes_alike (note : string) (d : Deposit) :
  decodeNote pedersenHash note = Ok d ->
  noteFormat (encodeNote (preimage d)) = true
  /\ decodeNote pedersenHash (encodeNote (preimage d)) = Ok d.
Proof.
  unfold decodeNote at 1.
  set (buf := bufferFromHex (dropChars 2 note)).
  set (n := leBuff2int (slice 0 31 buf)). set (s := leBuff2int (slice 31 62 buf)).
  assert (Hn : fits n 31).
  { apply leBuff2int_fits; [apply octets_slice, bufferFromHex_octets|].
    apply (slice_length 0 31). }
  assert (Hs : fits s 31).
  { apply leBuff2int_fits; [apply octets_slice, bufferFromHex_octets|].
    apply (slice_length 31 62). }
  rewrite (createDeposit_fits pedersenHash n s Hn Hs). intros E.
  assert (Hd : d = mkDeposit n s (leBytes n 31 ++ leBytes s 31)
                     (pedersenHash (leBytes n 31 ++ leBytes s 31))
                     (pedersenHash (leBytes n 31))) by congruence.
  rewrite Hd. cbn [preimage].
  destruct (decodeNote_encodeNote_fits n s Hn Hs) as [Hfmt Hdec].
  split; [exact Hfmt|]. rewrite Hdec. now apply createDeposit_fits.
Qed.

End Reencoding.

(** X15, at a string that is no well-formed note. *)
Lemma reencoded_note_decodes_alike_witness :
  noteFormat "0x1234" = false
  /\ noteFormat (encodeNote (leBytes 13330 31 ++ leBytes 0 31)) = true
  /\ decodeNote exampleHash (encodeNote (leBytes 13330 31 ++ leBytes 0 31))
     = decodeNote exampleHash "0x1234".
Proof.
  split; [reflexivity|].
  destruct (reencoded_note_decodes_alike exampleHash "0x1234"
              (mkDeposit 13330 0 (leBytes 13330 31 ++ leBytes 0 31)
                 (exampleHash (leBytes 13330 31 ++ leBytes 0 31))
                 (exampleHash (leBytes 13330 31))) eq_refl) as [Hfmt Hdec].
  split; [exact Hfmt | exact Hdec].
Defined.

(** ** The fee of the relay *)

(** X16.  For every integral quote from 0 to 2^53, the integers that a
    JavaScript number holds exactly and prints in plain decimal, the fee is
    the quote in gwei times 1_000_000, in wei, and computing it does not
    throw. *)
Theorem relayFee_value (gasPrices : RelayStatus) :
  0 <= gasPrices_fast gasPrices <= 2 ^ 53 ->
  relayFee gasPrices = Ok (gasPrices_fast gasPrices * 1000000000 * 1000000).
Proof. intros [Hq _]. now apply relayFee_of_quote. Qed.

(** X16, at a quote of 12 gwei. *)
Lemma relayFee_value_witness :
  relayFee (mkStatus "0x6A31736e7490AbE5D5676be059DFf064AB4aC754" (JsString "*") 12)
  = Ok (12 * 1000000000 * 1000000).
Proof.
  apply (relayFee_value
           (mkStatus "0x6A31736e7490AbE5D5676be059DFf064AB4aC754" (JsString "*") 12)).
  cbn [gasPrices_fast]. split; [lia | vm_compute; discriminate].
Defined.

(** ** Which check of the ledger fails *)

Section ValidationOrder.

Variable lib : MerkleTreeLib.

(** X17.  [generateMerkleProof] fails with "Merkle tree is corrupted"
    exactly when the ledger does not know the reconstructed root, and with
    "The note is already spent" exactly when it knows the root and has the
    nullifier hash registered; neither depends on whether the commitment is
    in the log. *)
Theorem validation_failures (contract : Contract) (deposit : Deposit) :
  (generateMerkleProof lib contract deposit = Err TreeCorrupted
   <-> isKnownRoot contract (toHex32 (reconstructedRoot lib contract)) = false)
  /\ (generateMerkleProof lib contract deposit = Err AlreadySpent
      <-> isKnownRoot contract (toHex32 (reconstructedRoot lib contract)) = true
          /\ isSpent contract (toHex32 (nullifierHash deposit)) = true).
Proof.
  unfold generateMerkleProof, reconstructedRoot, treeLeaves.
  destruct (isKnownRoot contract _) eqn:Hknown;
    destruct (isSpent contract _) eqn:Hspent; cbn [Bool.eqb assert bind];
    try (destruct (0 <=? _); cbn [assert bind]; [destruct (treePath lib _ _)|]);
    (split; split; intros H;
     [ try discriminate H; try reflexivity
     | try discriminate H; try reflexivity
     | try discriminate H; try (split; reflexivity)
     | try (destruct H as [H1 H2]; try discriminate H1; try discriminate H2);
       try reflexivity ]).
Qed.

End ValidationOrder.

(** ** Notes and preimages do not collide *)

Lemma encodeNote_inj (a b : Buffer) :
  octets a -> octets b ->
  List.length a = 62%nat -> List.length b = 62%nat ->
  encodeNote a = encodeNote b -> a = b.
Proof.
  intros Oa Ob La Lb E.
  rewrite (encodeNote_62 a La), (encodeNote_62 b Lb) in E.
  cbn [String.append] in E. injection E as E.
  rewrite <- (bufferFromHex_bufferToHex a Oa), <- (bufferFromHex_bufferToHex b Ob).
  now rewrite E.
Qed.

(** X18.  Two different 62-byte preimages are printed as different notes. *)
Theorem different_preimages_different_notes (a b : Buffer) :
  octets a -> octets b ->
  List.length a = 62%nat -> List.length b = 62%nat ->
  a <> b -> encodeNote a <> encodeNote b.
Proof.
  intros Oa Ob La Lb Hne E. apply Hne. now apply encodeNote_inj.
Qed.

(** X18, at the preimages of the scalars (5, 7) and (5, 8). *)
Lemma different_preimages_different_notes_witness :
  leBytes 5 31 ++ leBytes 7 31 <> leBytes 5 31 ++ leBytes 8 31
  /\ encodeNote (leBytes 5 31 ++ leBytes 7 31)
     <> encodeNote (leBytes 5 31 ++ leBytes 8 31).
Proof.
  assert (Hne : leBytes 5 31 ++ leBytes 7 31 <> leBytes 5 31 ++ leBytes 8 31)
    by (vm_compute; discriminate).
  split; [exact Hne|].
  apply (different_preimages_different_notes
           (leBytes 5 31 ++ leBytes 7 31) (leBytes 5 31 ++ leBytes 8 31)).
  - apply Forall_app; split; apply leBytes_octets.
  - apply Forall_app; split; apply leBytes_octets.
  - reflexivity.
  - reflexivity.
  - exact Hne.
Defined.

Lemma app_inj_length {A} (a a' b b' : list A) :
  List.length a = List.length a' -> a ++ b = a' ++ b' -> a = a' /\ b = b'.
Proof.
  revert a'. induction a as [|x a IH]; intros [|x' a'] L E;
    try discriminate L.
  - now split.
  - cbn [app] in E. injection E as -> E. injection L as L.
    destruct (IH a' L E) as [-> ->]. now split.
Qed.

Section PreimageFacts.

Variable pedersenHash : Buffer -> Z.

Lemma preimage_inj (n s n' s' : Z) (d d' : Deposit) :
  fits n 31 -> fits s 31 -> fits n' 31 -> fits s' 31 ->
  createDeposit pedersenHash n s = Ok d ->
  createDeposit pedersenHash n' s' = Ok d' ->
  preimage d = preimage d' ->
  n = n' /\ s = s'.
Proof.
  intros Hn Hs Hn' Hs' E E' P.
  rewrite (createDeposit_fits pedersenHash n s Hn Hs) in E.
  rewrite (createDeposit_fits pedersenHash n' s' Hn' Hs') in E'.
  assert (Hd : leBytes n 31 ++ leBytes s 31 = preimage d).
  { apply (f_equal (fun r => match r with Ok x => preimage x | Err _ => [] end))
      in E. exact E. }
  assert (Hd' : leBytes n' 31 ++ leBytes s' 31 = preimage d').
  { apply (f_equal (fun r => match r with Ok x => preimage x | Err _ => [] end))
      in E'. exact E'. }
  rewrite <- Hd, <- Hd' in P.
  apply app_inj_length in P; [|now rewrite !leBytes_length].
  destruct P as [P1 P2].
  apply (f_equal leBuff2int) in P1, P2.
  rewrite !leBuff2int_leBytes in P1, P2 by assumption. auto.
Qed.

(** X19.  For scalars that fit 31 bytes, deposits created from different
    pairs of nullifier and secret have different preimages. *)
Theorem different_scalars_different_preimages (n s n' s' : Z) (d d' : Deposit) :
  fits n 31 -> fits s 31 -> fits n' 31 -> fits s' 31 ->
  createDeposit pedersenHash n s = Ok d ->
  createDeposit pedersenHash n' s' = Ok d' ->
  n <> n' \/ s <> s' ->
  preimage d <> preimage d'.
Proof.
  intros Hn Hs Hn' Hs' E E' Hne P.
  destruct (preimage_inj n s n' s' d d' Hn Hs Hn' Hs' E E' P) as [-> ->].
  destruct Hne as [H|H]; now apply H.
Qed.

End PreimageFacts.

(** X19, at the pairs (5, 7) and (5, 8). *)
Lemma different_scalars_different_preimages_witness :
  (5 <> 5 \/ 7 <> 8)
  /\ leBytes 5 31 ++ leBytes 7 31 <> leBytes 5 31 ++ leBytes 8 31.
Proof.
  assert (F5 : fits 5 31) by (unfold fits; split; [lia | reflexivity]).
  assert (F7 : fits 7 31) by (unfold fits; split; [lia | reflexivity]).
  assert (F8 : fits 8 31) by (unfold fits; split; [lia | reflexivity]).
  assert (Hne : 5 <> 5 \/ 7 <> 8) by (right; discriminate).
  split; [exact Hne|].
  exact (different_scalars_different_preimages exampleHash 5 7 5 8 _ _
           F5 F7 F5 F8
           (createDeposit_fits exampleHash 5 7 F5 F7)
           (createDeposit_fits exampleHash 5 8 F5 F8) Hne).
Defined.

(** X17, at a ledger that does not know the root and at one that knows it
    and has the nullifier hash registered. *)
Lemma validation_failures_witness :
  generateMerkleProof exampleLib (exampleContract logA false false) blankDeposit
    = Err TreeCorrupted
  /\ generateMerkleProof exampleLib (exampleContract logA true true) blankDeposit
     = Err AlreadySpent.
Proof.
  destruct (validation_failures exampleLib (exampleContract logA false false)
              blankDeposit) as [[_ Hroot] _].
  destruct (validation_failures exampleLib (exampleContract logA true true)
              blankDeposit) as [_ [_ Hspent]].
  split; [apply Hroot; reflexivity | apply Hspent; split; reflexivity].
Defined.

(** X20.  [runConsole] accepts every well-formed withdrawal: with a note of
    124 hex digits and a recipient of 40, [withdraw note recipient] starts a
    direct withdrawal and [withdraw note recipient relayUrl], for a relay URL
    that is not empty, a relayed one; with more arguments it prints the usage
    and exits with code 1.  The usage is printed with code 0 only for the
    empty command line. *)
Theorem runConsole_accepts_wellformed (note recipient : string) :
  noteFormat note = true -> addressFormat recipient = true ->
  runConsole ["withdraw"; note; recipient] = RunWithdraw note recipient
  /\ (forall relayUrl, relayUrl <> "" ->
        runConsole ["withdraw"; note; recipient; relayUrl]
        = RunWithdrawRelay note recipient relayUrl)
  /\ (forall a b rest,
        runConsole ("withdraw" :: note :: recipient :: a :: b :: rest) = Help 1)
  /\ (forall args, runConsole args = Help 0 <-> args = []).
Proof.
  intros Hn Ha. split; [|split; [|split]].
  - unfold runConsole, runConsoleWithdraw.
    cbn [String.eqb Ascii.eqb Bool.eqb List.length Nat.leb andb nth].
    now rewrite Hn, Ha.
  - intros relayUrl Hurl. unfold runConsole, runConsoleWithdraw.
    cbn [String.eqb Ascii.eqb Bool.eqb List.length Nat.leb andb nth].
    rewrite Hn, Ha. destruct relayUrl; [contradiction | reflexivity].
  - intros a b rest. reflexivity.
  - intros args. split; [|intros ->; reflexivity].
    unfold runConsole. destruct args as [|command rest]; [reflexivity|].
    destruct (String.eqb command "deposit");
      [destruct (_ =? _)%nat; discriminate|].
    destruct (String.eqb command "balance");
      [destruct (_ && _); discriminate|].
    destruct (String.eqb command "withdraw").
    { unfold runConsoleWithdraw. destruct (_ && _); [|discriminate].
      destruct (nth 3 _ _); discriminate. }
    destruct (String.eqb command "test");
      [destruct (_ =? _)%nat; discriminate|].
    destruct (String.eqb command "testRelay");
      [destruct (_ =? _)%nat; discriminate|].
    discriminate.
Qed.

(** X20, at [sampleNote] and the recipient of the usage text. *)
Lemma runConsole_accepts_wellformed_witness :
  runConsole ["withdraw"; sampleNote; usageRecipient]
    = RunWithdraw sampleNote usageRecipient
  /\ runConsole ["withdraw"; sampleNote; usageRecipient; localRelayUrl]
     = RunWithdrawRelay sampleNote usageRecipient localRelayUrl.
Proof.
  destruct (runConsole_accepts_wellformed sampleNote usageRecipient
              eq_refl eq_refl) as (Hdirect & Hrelay & _).
  split; [exact Hdirect|]. apply Hrelay. discriminate.
Defined.
